(** * The Gaussian epilogue functor of
      [include/cutlass/epilogue/thread/gaussian.h]

    [GaussianEpilogue] post-processes the accumulators of a GEMM tile: every
    accumulator is converted to the compute type, sent through
    [p1 * exp(-0.5 * ((p2 - x) / p3)^2)] and converted to the output type.

    The embedding follows the class member by member.  The compute type is
    IEEE binary32 (the literal [-0.5f] and the intrinsic [__expf] are single
    precision), modelled with the executable specification of
    [Stdlib.Floats.SpecFloat]; the other three element types, their
    converters, the fragment width and the intrinsic itself are the template
    parameters of an [Instantiation].  Device memory is a finite map from
    addresses to binary32 values, and a read through a null or unmapped
    pointer, which is undefined behaviour in the source, is [None].

    The first part holds the definitions; the second the properties: the
    loop and the four call operators, then what binary32 arithmetic makes
    of the Gaussian at its peak, under reflection about the mean, with a
    zero standard deviation, and away from the mean.  The last rests on the
    monotonicity of rounding to nearest even, proved here on real values. *)

From Stdlib Require Import ZArith Bool Lia Reals Lra.
From Stdlib Require Import Floats.SpecFloat.
From stdpp Require Import base option list gmap.

(** ** IEEE binary32 *)

Module Float32.

Definition prec : Z := 24.
Definition emax : Z := 128.

Definition add : spec_float -> spec_float -> spec_float := SFadd prec emax.
Definition sub : spec_float -> spec_float -> spec_float := SFsub prec emax.
Definition mul : spec_float -> spec_float -> spec_float := SFmul prec emax.
Definition div : spec_float -> spec_float -> spec_float := SFdiv prec emax.
Definition opp : spec_float -> spec_float := SFopp.
Definition abs : spec_float -> spec_float := SFabs.
Definition leb : spec_float -> spec_float -> bool := SFleb.
Definition eqb : spec_float -> spec_float -> bool := SFeqb.

(** The value [m * 2^e], rounded to nearest even. *)
Definition of_scaled (m e : Z) : spec_float := binary_normalize prec emax m e false.

Definition zero : spec_float := S754_zero false.
Definition one : spec_float := S754_finite false 8388608 (-23).
(** The literal [-0.5f]. *)
Definition neg_half : spec_float := S754_finite true 8388608 (-24).
Definition pinf : spec_float := S754_infinity false.
Definition ninf : spec_float := S754_infinity true.
Definition nan : spec_float := S754_nan.

Definition valid (x : spec_float) : bool := valid_binary prec emax x.

Definition is_nan (x : spec_float) : bool :=
  match x with S754_nan => true | _ => false end.

Definition is_zero (x : spec_float) : bool :=
  match x with S754_zero _ => true | _ => false end.

(** [isfinite]: neither an infinity nor a NaN. *)
Definition is_finite (x : spec_float) : bool :=
  match x with S754_zero _ | S754_finite _ _ _ => true | _ => false end.

(** Neither a zero nor a NaN. *)
Definition is_nonzero (x : spec_float) : bool :=
  match x with S754_finite _ _ _ | S754_infinity _ => true | _ => false end.

End Float32.

Abbreviation fexp32 := (fexp Float32.prec Float32.emax).
Abbreviation BRA := (binary_round_aux Float32.prec Float32.emax).

Declare Scope float32_scope.
Delimit Scope float32_scope with f32.
Infix "-" := Float32.sub : float32_scope.
Infix "/" := Float32.div : float32_scope.
Infix "*" := Float32.mul : float32_scope.
Infix "+" := Float32.add : float32_scope.

(** ** The template parameters *)

(** [ElementCompute]: single precision. *)
Abbreviation ElementCompute := spec_float (only parsing).

(** One instantiation of the class template: the element types, [Count], the
    three [NumericConverter]s for the rounding style [Round], and the device
    intrinsic [__expf]. *)
Class Instantiation := {
  ElementOutput : Type;
  ElementAccumulator : Type;
  ElementSource : Type;
  kCount : nat;
  accumulator_converter : ElementAccumulator -> ElementCompute;
  source_converter : ElementSource -> ElementCompute;
  destination_converter : ElementCompute -> ElementOutput;
  expf : ElementCompute -> ElementCompute
}.

(** [NumericArrayConverter<T, S, N, Round>]: the scalar converter, lane by lane. *)
Definition NumericArrayConverter {S T : Type} (convert : S -> T) (s : list S) : list T :=
  convert <$> s.

(** ** Memory and pointers *)

(** Addresses count [ElementCompute] cells; [nullptr] is address 0. *)
Abbreviation pointer := Z (only parsing).
Definition nullptr : pointer := 0%Z.

(** [p[idx]]. *)
Definition load (mem : gmap Z ElementCompute) (p : pointer) (idx : Z) : option ElementCompute :=
  if bool_decide (p = nullptr) then None else mem !! (p + idx)%Z.

(** ** The class *)

Record Params := {
  p1 : pointer;
  p2 : pointer;
  p3 : pointer
}.

(** [Params()]. *)
Definition Params_default : Params :=
  {| p1 := nullptr; p2 := nullptr; p3 := nullptr |}.

Record GaussianEpilogue := {
  p1_ : pointer;
  p2_ : pointer;
  p3_ : pointer
}.

(** [GaussianEpilogue(Params const &params)]. *)
Definition GaussianEpilogue_new (params : Params) : GaussianEpilogue :=
  {| p1_ := p1 params; p2_ := p2 params; p3_ := p3 params |}.

Definition is_source_needed (self : GaussianEpilogue) : bool := false.

(** The one member function that is not [const]; it returns the object after
    the call. *)
Definition set_k_partition (k_partition k_partition_count : Z)
    (self : GaussianEpilogue) : GaussianEpilogue :=
  self.

(** [for (int i = first; i < first + trips; ++i) body]. *)
Fixpoint for_loop {St : Type} (body : nat -> St -> option St)
    (i trips : nat) (st : St) : option St :=
  match trips with
  | O => Some st
  | S trips' => st' ← body i st; for_loop body (S i) trips' st'
  end.

(** A default-initialised [cutlass::Array<T, N>]: lane [i] holds whatever
    [junk i] happens to be in the registers. *)
Definition Array_uninit {T : Type} (junk : nat -> T) (N : nat) : list T :=
  junk <$> seq 0 N.

Section Apply.
Context `{Instantiation}.
Variable mem : gmap Z ElementCompute.
Local Open Scope float32_scope.

(** [operator()(FragmentAccumulator const &, FragmentSource const &)].
    Fragments are lists of [kCount] lanes. *)
Definition apply_fragment_source (self : GaussianEpilogue) (junk : nat -> ElementCompute)
    (accumulator : list ElementAccumulator) (source : list ElementSource)
    : option (list ElementOutput) :=
  let converted_source := NumericArrayConverter source_converter source in
  let converted_accumulator := NumericArrayConverter accumulator_converter accumulator in
  intermediate ←
    for_loop (fun i intermediate =>
      x ← converted_accumulator !! i;
      p2i ← load mem (p2_ self) (Z.of_nat i);
      p3i ← load mem (p3_ self) (Z.of_nat i);
      let diff := (p2i - x) / p3i in
      p1i ← load mem (p1_ self) (Z.of_nat i);
      Some (<[i := p1i * expf (Float32.neg_half * diff * diff)]> intermediate))
      0 kCount (Array_uninit junk kCount);
  Some (NumericArrayConverter destination_converter intermediate).

(** [operator()(FragmentAccumulator const &)]. *)
Definition apply_fragment (self : GaussianEpilogue) (junk : nat -> ElementCompute)
    (accumulator : list ElementAccumulator) : option (list ElementOutput) :=
  let converted_accumulator := NumericArrayConverter accumulator_converter accumulator in
  intermediate ←
    for_loop (fun i intermediate =>
      x ← converted_accumulator !! i;
      p2i ← load mem (p2_ self) (Z.of_nat i);
      p3i ← load mem (p3_ self) (Z.of_nat i);
      let diff := (p2i - x) / p3i in
      p1i ← load mem (p1_ self) (Z.of_nat i);
      Some (<[i := p1i * expf (Float32.neg_half * diff * diff)]> intermediate))
      0 kCount (Array_uninit junk kCount);
  Some (NumericArrayConverter destination_converter intermediate).

(** [operator()(ElementAccumulator, ElementC, int)]. *)
Definition apply_scalar_source (self : GaussianEpilogue)
    (accumulator : ElementAccumulator) (source : ElementSource) (idx : Z)
    : option ElementOutput :=
  let converted_accumulator := accumulator_converter accumulator in
  let x := converted_accumulator in
  p2i ← load mem (p2_ self) idx;
  p3i ← load mem (p3_ self) idx;
  let diff := (p2i - x) / p3i in
  p1i ← load mem (p1_ self) idx;
  let result := p1i * expf (Float32.neg_half * diff * diff) in
  Some (destination_converter result).

(** [operator()(ElementAccumulator, int)]. *)
Definition apply_scalar (self : GaussianEpilogue)
    (accumulator : ElementAccumulator) (idx : Z) : option ElementOutput :=
  let converted_accumulator := accumulator_converter accumulator in
  let x := converted_accumulator in
  p2i ← load mem (p2_ self) idx;
  p3i ← load mem (p3_ self) idx;
  let diff := (p2i - x) / p3i in
  p1i ← load mem (p1_ self) idx;
  let result := p1i * expf (Float32.neg_half * diff * diff) in
  Some (destination_converter result).

(** The three parameter vectors can be read at every index below [n]. *)
Definition params_readable (self : GaussianEpilogue) (n : nat) : bool :=
  forallb (fun i : nat =>
    let idx := Z.of_nat i in
    bool_decide (is_Some (load mem (p1_ self) idx)) &&
    bool_decide (is_Some (load mem (p2_ self) idx)) &&
    bool_decide (is_Some (load mem (p3_ self) idx)))
    (seq 0 n).

End Apply.

(** ** Calls on a functor object *)

Section Calls.
Context `{Instantiation}.
Variable mem : gmap Z ElementCompute.

(** The public member functions with their arguments. *)
Inductive call :=
| Call_is_source_needed
| Call_set_k_partition (k_partition k_partition_count : Z)
| Call_fragment_source (junk : nat -> ElementCompute)
    (accumulator : list ElementAccumulator) (source : list ElementSource)
| Call_fragment (junk : nat -> ElementCompute) (accumulator : list ElementAccumulator)
| Call_scalar_source (accumulator : ElementAccumulator) (source : ElementSource) (idx : Z)
| Call_scalar (accumulator : ElementAccumulator) (idx : Z).

Inductive result :=
| Ret_bool (b : bool)
| Ret_void
| Ret_fragment (output : option (list ElementOutput))
| Ret_scalar (output : option ElementOutput).

(** One call: what it returns, and the object after it.  The [const]
    member functions hand the receiver back as they found it. *)
Definition invoke (c : call) (self : GaussianEpilogue) : result * GaussianEpilogue :=
  match c with
  | Call_is_source_needed => (Ret_bool (is_source_needed self), self)
  | Call_set_k_partition k n => (Ret_void, set_k_partition k n self)
  | Call_fragment_source junk accumulator source =>
      (Ret_fragment (apply_fragment_source mem self junk accumulator source), self)
  | Call_fragment junk accumulator =>
      (Ret_fragment (apply_fragment mem self junk accumulator), self)
  | Call_scalar_source accumulator source idx =>
      (Ret_scalar (apply_scalar_source mem self accumulator source idx), self)
  | Call_scalar accumulator idx =>
      (Ret_scalar (apply_scalar mem self accumulator idx), self)
  end.

(** A sequence of calls on one object, left to right. *)
Fixpoint invoke_all (cs : list call) (self : GaussianEpilogue) : GaussianEpilogue :=
  match cs with
  | [] => self
  | c :: cs' => invoke_all cs' (snd (invoke c self))
  end.

End Calls.

(** ** A software exponential *)

Module RefExp.

(** [ln 2] and [1 / ln 2], scaled by [2^64]. *)
Definition LN2 : Z := 12786308645202655660.
Definition LOG2E : Z := 26613026195688644983.
Definition ONE : Z := 2 ^ 64.

(** Horner evaluation of [sum_{n <= terms} r^n / n!] on values scaled by
    [2^64]; [n] counts down from [terms]. *)
Fixpoint taylor (r : Z) (n : nat) (acc : Z) : Z :=
  match n with
  | O => acc
  | S n' => taylor r n' (ONE + (r * acc) / (Z.of_nat n * ONE))%Z
  end.

(** [exp] of [t / 2^64]: mantissa scaled by [2^64] and binary exponent. *)
Definition exp_fixed (t : Z) : Z * Z :=
  let k := ((t * LOG2E + 2 ^ 127) / 2 ^ 128)%Z in
  let r := (t - k * LN2)%Z in
  (taylor r 24 ONE, k).

(** Modelled from the spec: [__expf] is a device intrinsic and no source of
    it is part of the repository.  The spec describes it as an injected
    approximate exponential that may be replaced by a standard one, with
    extreme arguments producing 0 or infinity; [expf] is such a
    replacement.  The theorems take the intrinsic as the parameter [expf]
    of the instantiation; this function only instantiates it where the
    model is run on concrete numbers. *)
Definition expf (x : spec_float) : spec_float :=
  match x with
  | S754_nan => S754_nan
  | S754_infinity false => S754_infinity false
  | S754_infinity true => S754_zero false
  | S754_zero _ => Float32.one
  | S754_finite s m e =>
      (* [|x| >= 2^8]: below every subnormal, or above every finite number *)
      if (9 <=? Z.pos (digits2_pos m) + e)%Z
      then (if s then S754_zero false else S754_infinity false)
      else
        let t := Z.shiftl (Z.pos m) (e + 64) in
        let '(mant, k) := exp_fixed (if s then (- t)%Z else t) in
        Float32.of_scaled mant (k - 64)
  end.

End RefExp.

(** ** Concrete instantiations *)

(** All four element types are [float], so every converter is the identity;
    [exponential] stands for the intrinsic. *)
Definition float_instance_with (exponential : spec_float -> spec_float) (N : nat)
    : Instantiation := {|
  ElementOutput := spec_float;
  ElementAccumulator := spec_float;
  ElementSource := spec_float;
  kCount := N;
  accumulator_converter := fun x => x;
  source_converter := fun x => x;
  destination_converter := fun x => x;
  expf := exponential
|}.

Definition float_instance (N : nat) : Instantiation :=
  float_instance_with RefExp.expf N.

(** The parameter vectors [vs1], [vs2], [vs3] laid out at addresses 16, 32
    and 48. *)
Definition place (base : Z) (vs : list spec_float) : list (Z * spec_float) :=
  imap (fun i v => ((base + Z.of_nat i)%Z, v)) vs.

Definition memory_of (vs1 vs2 vs3 : list spec_float) : gmap Z spec_float :=
  list_to_map (place 16 vs1 ++ place 32 vs2 ++ place 48 vs3).

Definition functor_at_16_32_48 : GaussianEpilogue :=
  GaussianEpilogue_new {| p1 := 16; p2 := 32; p3 := 48 |}.

Definition no_junk : nat -> spec_float := fun _ => Float32.zero.

(** The scenario of the spec: [p1 = [2.0]], [p2 = [1.0]], [p3 = [0.5]]. *)
Definition two : spec_float := Float32.of_scaled 2 0.
Definition one_half : spec_float := Float32.of_scaled 1 (-1).
Definition one_and_half : spec_float := Float32.of_scaled 3 (-1).

Definition scenario_memory : gmap Z spec_float :=
  memory_of [two] [Float32.one] [one_half].

(** [2^-24]: the binary32 numbers just above 1 are [2^-23] apart. *)
Definition tiny : spec_float := Float32.of_scaled 1 (-24).

(** ** Variants of the scenario *)

(** Two lanes of the scenario side by side. *)
Definition two_lane_memory : gmap Z spec_float :=
  memory_of [two; two] [Float32.one; Float32.one] [one_half; one_half].

(** The standard deviation 1.0, and -0.5. *)
Definition unit_sigma_memory : gmap Z spec_float :=
  memory_of [two] [Float32.one] [Float32.one].

Definition negated_sigma_memory : gmap Z spec_float :=
  memory_of [two] [Float32.one] [Float32.opp one_half].

(** The standard deviation 0.0. *)
Definition zero_sigma_memory : gmap Z spec_float :=
  memory_of [two] [Float32.one] [Float32.zero].

(** A NaN for the mean. *)
Definition nan_mean_memory : gmap Z spec_float :=
  memory_of [two] [Float32.nan] [one_half].

(** The amplitude -2.0. *)
Definition negated_amplitude_memory : gmap Z spec_float :=
  memory_of [Float32.opp two] [Float32.one] [one_half].

(** The scenario with a cell written far from the three vectors. *)
Definition scribbled_memory : gmap Z spec_float :=
  <[100%Z := Float32.nan]> scenario_memory.

(** ** Proof devices *)

Section LaneValue.
Context `{Instantiation}.
Variable mem : gmap Z ElementCompute.
Local Open Scope float32_scope.

(** What one trip of the loop stores in lane [i] of [intermediate]. *)
Definition lane_value (self : GaussianEpilogue) (converted_accumulator : list ElementCompute)
    (i : nat) : option ElementCompute :=
  x ← converted_accumulator !! i;
  p2i ← load mem (p2_ self) (Z.of_nat i);
  p3i ← load mem (p3_ self) (Z.of_nat i);
  p1i ← load mem (p1_ self) (Z.of_nat i);
  Some (p1i * expf (Float32.neg_half * ((p2i - x) / p3i) * ((p2i - x) / p3i))).

End LaneValue.

(** ** Real values of binary32 numbers *)

Section Values.
Local Open Scope R_scope.

(** [2^e]. *)
Definition bpow (e : Z) : R := powerRZ 2 e.

(** The value of the mantissa [m] at the exponent [e]. *)
Definition F2R (m e : Z) : R := IZR m * bpow e.

(** [v] lies in the cell [[m * 2^e, (m + 1) * 2^e)] at the place [l] says:
    on its left end, in its lower half, on its midpoint, or in its upper
    half. *)
Definition located (v : R) (m e : Z) (l : location) : Prop :=
  match l with
  | loc_Exact => v = F2R m e
  | loc_Inexact Lt => F2R m e < v < F2R m e + bpow e / 2
  | loc_Inexact Eq => v = F2R m e + bpow e / 2
  | loc_Inexact Gt => F2R m e + bpow e / 2 < v < F2R m e + bpow e
  end.

(** The value of a zero or a finite number. *)
Definition B2R (x : spec_float) : R :=
  match x with
  | S754_finite s m e => F2R (cond_Zopp s (Z.pos m)) e
  | _ => 0%R
  end.

End Values.

(** The second half of [binary_round_aux]: renormalise and check for
    overflow. *)
Definition round_result (s : bool) (n T : Z) : spec_float :=
  let '(mrs'', e'') := shr_fexp Float32.prec Float32.emax n T loc_Exact in
  match shr_m mrs'' with
  | Z0 => S754_zero s
  | Zpos m =>
      if (e'' <=? Float32.emax - Float32.prec)%Z then S754_finite s m e''
      else S754_infinity s
  | Zneg _ => S754_nan
  end.

(** The order of magnitudes. *)
Definition ale (x y : spec_float) : Prop := SFleb (SFabs x) (SFabs y) = true.

(** The sign bit; a NaN has none. *)
Definition sign_bit (x : spec_float) : bool :=
  match x with
  | S754_zero s | S754_infinity s | S754_finite s _ _ => s
  | S754_nan => false
  end.

(** The argument of [__expf] in the loop body, for the values read from
    [p2] and [p3] and the converted accumulator [x]. *)
Definition exponent_argument (a2 a3 x : spec_float) : spec_float :=
  (Float32.neg_half * ((a2 - x) / a3) * ((a2 - x) / a3))%f32.

(** 65.0, which is 128 standard deviations of 0.5 above the mean 1.0. *)
Definition sixty_five : spec_float := Float32.of_scaled 65 0.

(** * Properties *)

(** ** The scenario of the spec *)

(** Accumulators 1.0, 1.5 and 2.0 give 2.0, [10175896 * 2^-23 = 1.2130613...]
    and [9082197 * 2^-25 = 0.2706705...]. *)
Example scenario_outputs :
  @apply_fragment (float_instance 1) scenario_memory functor_at_16_32_48 no_junk
    [Float32.one] = Some [two] /\
  @apply_fragment (float_instance 1) scenario_memory functor_at_16_32_48 no_junk
    [one_and_half] = Some [S754_finite false 10175896 (-23)] /\
  @apply_fragment (float_instance 1) scenario_memory functor_at_16_32_48 no_junk
    [two] = Some [S754_finite false 9082197 (-25)].
Proof. repeat split; vm_compute; reflexivity. Qed.

(** ** The loop *)

Section ForLoop.
Context {T : Type}.
Implicit Types (f : nat -> option T) (st : list T).

Lemma for_loop_ext {St : Type} (body body' : nat -> St -> option St) i n (s : St) :
  (forall j s', body j s' = body' j s') ->
  for_loop body i n s = for_loop body' i n s.
Proof.
  intros Hext. revert i s.
  induction n as [|n IH]; intros i s; simpl; [done|].
  rewrite Hext. destruct (body' i s); simpl; auto.
Qed.

(** A loop that stores [f j] in lane [j] for [j = i, ..., i + n - 1]
    rewrites exactly that window, or fails if one of the [f j] does. *)
Lemma for_loop_store f i n st :
  i + n <= length st ->
  for_loop (fun j s => v ← f j; Some (<[j := v]> s)) i n st
  = vs ← mapM f (seq i n); Some (take i st ++ vs ++ drop (i + n) st).
Proof.
  revert i st. induction n as [|n IH]; intros i st Hlen; simpl.
  - by rewrite Nat.add_0_r, take_drop.
  - destruct (f i) as [v|] eqn:Hv; simpl; [|done].
    rewrite IH by (rewrite length_insert; lia).
    destruct (mapM f (seq (S i) n)) as [vs|]; simpl; [|done].
    f_equal.
    rewrite (take_S_r _ _ v) by (apply list_lookup_insert_eq; lia).
    rewrite take_insert_ge by lia.
    rewrite drop_insert_lt by lia.
    rewrite <- app_assoc. simpl.
    by rewrite Nat.add_succ_r.
Qed.

Lemma for_loop_store_all f st :
  for_loop (fun j s => v ← f j; Some (<[j := v]> s)) 0 (length st) st
  = mapM f (seq 0 (length st)).
Proof.
  rewrite for_loop_store by lia. simpl.
  destruct (mapM f (seq 0 (length st))) as [vs|]; simpl; [|done].
  by rewrite drop_all, app_nil_r.
Qed.

Lemma mapM_seq_lookup f n vs j :
  mapM f (seq 0 n) = Some vs -> j < n -> vs !! j = f j.
Proof.
  intros Hm Hj. apply mapM_Some in Hm.
  destruct (Forall2_lookup_l _ _ _ j j Hm) as (v & Hv & Hf).
  - by apply lookup_seq_lt.
  - by rewrite Hv, Hf.
Qed.

Lemma mapM_seq_total f n :
  (forall j, j < n -> is_Some (f j)) -> is_Some (mapM f (seq 0 n)).
Proof.
  intros Hf. apply mapM_is_Some, Forall_forall.
  intros j Hj. apply elem_of_seq in Hj. apply Hf. lia.
Qed.

End ForLoop.

Lemma length_Array_uninit {T : Type} (junk : nat -> T) N :
  length (Array_uninit junk N) = N.
Proof. unfold Array_uninit. by rewrite length_fmap, length_seq. Qed.

Section FragmentForm.
Context `{Instantiation}.
Variable mem : gmap Z ElementCompute.
Local Open Scope float32_scope.

(** The fragment form in closed form: lane by lane, then the output
    converter. *)
Lemma apply_fragment_lanes self junk accumulator :
  apply_fragment mem self junk accumulator
  = intermediate ← mapM (lane_value mem self (accumulator_converter <$> accumulator)) (seq 0 kCount);
    Some (destination_converter <$> intermediate).
Proof.
  unfold apply_fragment, NumericArrayConverter.
  rewrite <- (length_Array_uninit junk kCount) at 2 3.
  rewrite <- for_loop_store_all.
  rewrite length_Array_uninit.
  f_equal. apply for_loop_ext. intros j s.
  unfold lane_value.
  destruct (_ !! j); simpl; [|done].
  destruct (load mem (p2_ self) (Z.of_nat j)); simpl; [|done].
  destruct (load mem (p3_ self) (Z.of_nat j)); simpl; [|done].
  by destruct (load mem (p1_ self) (Z.of_nat j)).
Qed.

Lemma params_readable_lookup self n i :
  params_readable mem self n = true -> i < n ->
  is_Some (load mem (p1_ self) (Z.of_nat i)) /\
  is_Some (load mem (p2_ self) (Z.of_nat i)) /\
  is_Some (load mem (p3_ self) (Z.of_nat i)).
Proof.
  unfold params_readable. rewrite forallb_forall. intros Hall Hi.
  specialize (Hall i). rewrite in_seq in Hall.
  specialize (Hall ltac:(lia)).
  apply andb_prop in Hall as [Hall H3].
  apply andb_prop in Hall as [H1 H2].
  apply bool_decide_eq_true in H1, H2, H3. auto.
Qed.

Lemma lane_value_total self accumulator i :
  params_readable mem self kCount = true ->
  length accumulator = kCount -> i < kCount ->
  is_Some (lane_value mem self (accumulator_converter <$> accumulator) i).
Proof.
  intros Hr Hlen Hi.
  destruct (params_readable_lookup _ _ _ Hr Hi) as ([a1 E1] & [a2 E2] & [a3 E3]).
  destruct (lookup_lt_is_Some_2 accumulator i ltac:(lia)) as [a Ea].
  unfold lane_value. rewrite list_lookup_fmap, Ea, E2, E3, E1. simpl. eauto.
Qed.

(** With readable parameter vectors the fragment form returns. *)
Lemma apply_fragment_total self junk accumulator :
  params_readable mem self kCount = true ->
  length accumulator = kCount ->
  exists output, apply_fragment mem self junk accumulator = Some output
                 /\ length output = kCount.
Proof.
  intros Hr Hlen. rewrite apply_fragment_lanes.
  destruct (mapM_seq_total (lane_value mem self (accumulator_converter <$> accumulator)) kCount)
    as [vs Hvs].
  { intros j Hj. by apply lane_value_total. }
  rewrite Hvs. simpl. eexists; split; [done|].
  rewrite length_fmap. apply length_mapM in Hvs. by rewrite <- Hvs, length_seq.
Qed.

Lemma apply_fragment_lookup self junk accumulator output i :
  apply_fragment mem self junk accumulator = Some output -> i < kCount ->
  output !! i
  = destination_converter <$> lane_value mem self (accumulator_converter <$> accumulator) i.
Proof.
  rewrite apply_fragment_lanes. intros Hout Hi.
  destruct (mapM _ _) as [vs|] eqn:Hvs; simpl in Hout; [|done].
  injection Hout as <-.
  by rewrite list_lookup_fmap, (mapM_seq_lookup _ _ _ _ Hvs Hi).
Qed.

End FragmentForm.

Section Structural.
Context `{Instantiation}.
Variable mem : gmap Z ElementCompute.
Local Open Scope float32_scope.

Lemma lane_value_scalar self accumulator i a :
  accumulator !! i = Some a ->
  destination_converter <$> lane_value mem self (accumulator_converter <$> accumulator) i
  = apply_scalar mem self a (Z.of_nat i).
Proof.
  intros Ha. unfold lane_value, apply_scalar.
  rewrite list_lookup_fmap, Ha. simpl.
  destruct (load mem (p2_ self) (Z.of_nat i)); simpl; [|done].
  destruct (load mem (p3_ self) (Z.of_nat i)); simpl; [|done].
  by destruct (load mem (p1_ self) (Z.of_nat i)).
Qed.

(** Lane [i] of the fragment form, with the values the three parameter
    vectors hold at index [i]. *)
Lemma apply_fragment_lane self junk accumulator i a a1 a2 a3 :
  length accumulator = kCount ->
  params_readable mem self kCount = true ->
  accumulator !! i = Some a ->
  load mem (p1_ self) (Z.of_nat i) = Some a1 ->
  load mem (p2_ self) (Z.of_nat i) = Some a2 ->
  load mem (p3_ self) (Z.of_nat i) = Some a3 ->
  exists output,
    apply_fragment mem self junk accumulator = Some output /\
    length output = kCount /\
    output !! i =
      Some (destination_converter
              (a1 * expf (Float32.neg_half * ((a2 - accumulator_converter a) / a3)
                            * ((a2 - accumulator_converter a) / a3)))).
Proof.
  intros Hlen Hr Ha E1 E2 E3.
  destruct (apply_fragment_total mem self junk accumulator Hr Hlen) as (output & Hout & Hn).
  exists output. split; [done|]. split; [done|].
  assert (Hi : i < kCount) by (rewrite <- Hlen; by eapply lookup_lt_Some).
  rewrite (apply_fragment_lookup mem _ _ _ _ _ Hout Hi).
  unfold lane_value. rewrite list_lookup_fmap, Ha. simpl.
  by rewrite E2, E3, E1.
Qed.

(** C1. For a fragment of [kCount] accumulators and readable parameter
    vectors, the one-argument fragment form returns a fragment of [kCount]
    outputs, and its lane [i] is obtained by converting accumulator lane
    [i] to the compute type ([x]), evaluating
    [p1[i] * expf(-0.5f * diff * diff)] with [diff = (p2[i] - x) / p3[i]]
    in binary32 (the square is the source's left-to-right product), and
    converting that value to the output type. *)
Theorem C1_apply_fragment_lane self junk accumulator i a a1 a2 a3 :
  length accumulator = kCount ->
  params_readable mem self kCount = true ->
  accumulator !! i = Some a ->
  load mem (p1_ self) (Z.of_nat i) = Some a1 ->
  load mem (p2_ self) (Z.of_nat i) = Some a2 ->
  load mem (p3_ self) (Z.of_nat i) = Some a3 ->
  exists output,
    apply_fragment mem self junk accumulator = Some output /\
    length output = kCount /\
    output !! i =
      Some (destination_converter
              (let x := accumulator_converter a in
               let diff := (a2 - x) / a3 in
               a1 * expf (Float32.neg_half * diff * diff))).
Proof. apply apply_fragment_lane. Qed.

(** C2. Both two-argument forms return what the one-argument form returns
    on the same accumulator (and index), whatever the source argument is. *)
Theorem C2_source_ignored self junk accumulator source a s idx :
  apply_fragment_source mem self junk accumulator source
    = apply_fragment mem self junk accumulator
  /\ apply_scalar_source mem self a s idx = apply_scalar mem self a idx.
Proof. split; reflexivity. Qed.

Lemma invoke_receiver c self : snd (invoke mem c self) = self.
Proof. by destruct c. Qed.

Lemma invoke_all_receiver cs self : invoke_all mem cs self = self.
Proof.
  revert self. induction cs as [|c cs IH]; intros self; simpl; [done|].
  by rewrite invoke_receiver.
Qed.

(** C3. [is_source_needed] is false for a functor built from any [Params],
    the default ones with their null pointers included, and stays false
    after any sequence of calls. *)
Theorem C3_is_source_needed_false params cs :
  is_source_needed (GaussianEpilogue_new params) = false
  /\ is_source_needed (GaussianEpilogue_new Params_default) = false
  /\ fst (invoke mem Call_is_source_needed (invoke_all mem cs (GaussianEpilogue_new params)))
     = Ret_bool false.
Proof. by rewrite invoke_all_receiver. Qed.

(** C4. [set_k_partition] returns the functor it was called on, for any
    partition index and count, and any call made afterwards returns what
    it returns without it. *)
Theorem C4_set_k_partition_noop self k_partition k_partition_count c :
  set_k_partition k_partition k_partition_count self = self
  /\ invoke mem c (snd (invoke mem (Call_set_k_partition k_partition k_partition_count) self))
     = invoke mem c self.
Proof. split; reflexivity. Qed.

Lemma apply_fragment_junk self junk junk' accumulator :
  apply_fragment mem self junk accumulator = apply_fragment mem self junk' accumulator.
Proof. by rewrite !apply_fragment_lanes. Qed.

(** C9. Every call leaves the functor (its three pointers) as it was; the
    result of a call is the same after any sequence of earlier calls, in
    particular when the same call is repeated; and the fragment forms do
    not depend on the indeterminate initial contents of [intermediate]. *)
Theorem C9_stateless self cs c junk junk' accumulator source :
  snd (invoke mem c self) = self
  /\ invoke mem c (invoke_all mem cs self) = invoke mem c self
  /\ fst (invoke mem c (snd (invoke mem c self))) = fst (invoke mem c self)
  /\ apply_fragment mem self junk accumulator = apply_fragment mem self junk' accumulator
  /\ apply_fragment_source mem self junk accumulator source
     = apply_fragment_source mem self junk' accumulator source.
Proof.
  rewrite invoke_receiver, invoke_all_receiver.
  repeat split.
  - apply apply_fragment_junk.
  - apply apply_fragment_junk.
Qed.

(** C10. With readable parameter vectors the one-argument fragment form
    returns a fragment whose lane [i] is what the one-argument scalar form
    returns for accumulator lane [i] and index [i]. *)
Theorem C10_fragment_matches_scalar self junk accumulator :
  length accumulator = kCount ->
  params_readable mem self kCount = true ->
  exists output,
    apply_fragment mem self junk accumulator = Some output /\
    forall i a, accumulator !! i = Some a ->
      exists o, output !! i = Some o /\ apply_scalar mem self a (Z.of_nat i) = Some o.
Proof.
  intros Hlen Hr.
  destruct (apply_fragment_total mem self junk accumulator Hr Hlen) as (output & Hout & Hn).
  exists output. split; [done|]. intros i a Ha.
  assert (Hi : i < kCount) by (rewrite <- Hlen; by eapply lookup_lt_Some).
  destruct (lookup_lt_is_Some_2 output i ltac:(lia)) as [o Ho].
  exists o. split; [done|].
  rewrite <- Ho, (apply_fragment_lookup mem _ _ _ _ _ Hout Hi).
  symmetry. by apply lane_value_scalar.
Qed.

End Structural.

(** The scenario of the spec, lane 0 with accumulator 1.5. *)
Lemma C1_apply_fragment_lane_witness :
  exists output,
    @apply_fragment (float_instance 1) scenario_memory functor_at_16_32_48 no_junk [one_and_half]
      = Some output /\
    length output = 1 /\
    output !! 0 =
      Some (two * RefExp.expf (Float32.neg_half * ((Float32.one - one_and_half) / one_half)
                                 * ((Float32.one - one_and_half) / one_half)))%f32.
Proof.
  apply (@C1_apply_fragment_lane (float_instance 1) scenario_memory functor_at_16_32_48
           no_junk [one_and_half] 0 one_and_half two Float32.one one_half);
    reflexivity.
Defined.

Lemma C10_fragment_matches_scalar_witness :
  exists output,
    @apply_fragment (float_instance 1) scenario_memory functor_at_16_32_48 no_junk [two]
      = Some output /\
    forall i a, [two] !! i = Some a ->
      exists o, output !! i = Some o /\
        @apply_scalar (float_instance 1) scenario_memory functor_at_16_32_48 a (Z.of_nat i)
        = Some o.
Proof.
  apply (@C10_fragment_matches_scalar (float_instance 1) scenario_memory functor_at_16_32_48
           no_junk [two]); reflexivity.
Defined.

(** ** Binary32 arithmetic *)

Section Rounding.
Local Open Scope Z_scope.
Let prec := Float32.prec.
Let emax := Float32.emax.
Let emin := SpecFloat.emin prec emax.

Lemma shr_1_digits mrs :
  Zdigits2 (shr_m (shr_1 mrs)) = Z.max 0 (Zdigits2 (shr_m mrs) - 1).
Proof. destruct mrs as [[|[p|p|]|[p|p|]] r s]; simpl; lia. Qed.

Lemma shr_1_nonneg mrs : 0 <= shr_m mrs -> 0 <= shr_m (shr_1 mrs).
Proof. destruct mrs as [[|[p|p|]|[p|p|]] r s]; simpl; lia. Qed.

Lemma shr_iter_digits p mrs :
  Zdigits2 (shr_m (SpecFloat.iter_pos shr_1 p mrs))
  = Z.max 0 (Zdigits2 (shr_m mrs) - Z.pos p).
Proof.
  revert mrs. induction p as [p IH|p IH|]; intros mrs; simpl.
  - rewrite !IH, shr_1_digits. lia.
  - rewrite !IH. lia.
  - apply shr_1_digits.
Qed.

Lemma shr_iter_nonneg p mrs :
  0 <= shr_m mrs -> 0 <= shr_m (SpecFloat.iter_pos shr_1 p mrs).
Proof.
  revert mrs. induction p as [p IH|p IH|]; intros mrs Hm; simpl.
  - by apply IH, IH, shr_1_nonneg.
  - by apply IH, IH.
  - by apply shr_1_nonneg.
Qed.

Lemma Zdigits2_pos m : 0 < m -> 0 < Zdigits2 m.
Proof. destruct m; simpl; lia. Qed.

Lemma Zdigits2_pos_inv m : 0 <= m -> 0 < Zdigits2 m -> 0 < m.
Proof. destruct m; simpl; lia. Qed.

Lemma shr_m_of_loc m l : shr_m (shr_record_of_loc m l) = m.
Proof. by destruct l as [|[]]. Qed.

Lemma fexp_ge_emin e : emin <= fexp prec emax e.
Proof. unfold fexp. fold emin. lia. Qed.

(** From the smallest exponent upwards, the shift to the canonical
    exponent keeps a positive mantissa positive. *)
Lemma shr_fexp_pos m e l :
  0 < m -> emin <= e ->
  0 < shr_m (fst (shr_fexp prec emax m e l)) /\ emin <= snd (shr_fexp prec emax m e l).
Proof.
  intros Hm He. unfold shr_fexp, shr.
  destruct (fexp prec emax (Zdigits2 m + e) - e) as [|p|p] eqn:Hp; simpl;
    rewrite ?shr_m_of_loc; try (split; [done|lia]).
  assert (Hd := Zdigits2_pos m Hm).
  unfold fexp in Hp. fold emin in Hp.
  assert (Hk : Z.pos p = Zdigits2 m - prec) by lia.
  split; [|lia].
  apply Zdigits2_pos_inv.
  - apply shr_iter_nonneg. rewrite shr_m_of_loc. lia.
  - rewrite shr_iter_digits, shr_m_of_loc, Hk. unfold prec, Float32.prec. lia.
Qed.

Lemma round_nearest_even_pos m l : 0 < m -> 0 < round_nearest_even m l.
Proof. destruct l as [|[]]; simpl; try lia. destruct (Z.even m); lia. Qed.

(** No underflow to zero: a positive mantissa at an exponent of the format
    rounds to a finite number or to an infinity. *)
Lemma binary_round_aux_nonzero s m e l :
  0 < m -> emin <= e ->
  Float32.is_nonzero (binary_round_aux prec emax s m e l) = true.
Proof.
  intros Hm He. unfold binary_round_aux.
  destruct (shr_fexp_pos m e l Hm He) as [Hm' He'].
  destruct (shr_fexp prec emax m e l) as [mrs' e']. simpl in Hm', He'.
  pose proof (round_nearest_even_pos _ (loc_of_shr_record mrs') Hm') as Hr.
  destruct (shr_fexp_pos _ e' loc_Exact Hr He') as [Hm'' He''].
  destruct (shr_fexp prec emax _ e' loc_Exact) as [mrs'' e'']. simpl in Hm'', He''.
  destruct (shr_m mrs''); try lia.
  by destruct (_ <=? _).
Qed.

Lemma binary_round_nonzero s m e :
  emin <= e -> Float32.is_nonzero (binary_round prec emax s m e) = true.
Proof.
  intros He. unfold binary_round, shl_align.
  pose proof (fexp_ge_emin (Z.pos (digits2_pos m) + e)).
  destruct (_ - e); apply binary_round_aux_nonzero; lia.
Qed.

Lemma binary_normalize_nonzero m e :
  m <> 0 -> emin <= e ->
  Float32.is_nonzero (binary_normalize prec emax m e false) = true.
Proof. destruct m; [done|..]; intros _ He; by apply binary_round_nonzero. Qed.

Lemma digits2_pos_iter_xO m d :
  digits2_pos (Pos.iter xO m d) = (digits2_pos m + d)%positive.
Proof.
  induction d as [|d IH] using Pos.peano_ind.
  - simpl. lia.
  - rewrite Pos.iter_succ. simpl. rewrite IH. lia.
Qed.

Lemma valid_finite s m e :
  Float32.valid (S754_finite s m e) = true ->
  fexp prec emax (Z.pos (digits2_pos m) + e) = e.
Proof.
  unfold Float32.valid, valid_binary, bounded, canonical_mantissa.
  intros Hv. apply andb_prop in Hv as [Hc _]. by apply Z.eqb_eq in Hc.
Qed.

Lemma valid_emin s m e : Float32.valid (S754_finite s m e) = true -> emin <= e.
Proof. intros Hv. rewrite <- (valid_finite _ _ _ Hv). apply fexp_ge_emin. Qed.

(** Canonical mantissas that agree once aligned to the smaller exponent
    are one mantissa at one exponent. *)
Lemma aligned_eq mx ex my ey :
  fexp prec emax (Z.pos (digits2_pos mx) + ex) = ex ->
  fexp prec emax (Z.pos (digits2_pos my) + ey) = ey ->
  fst (shl_align mx ex (Z.min ex ey)) = fst (shl_align my ey (Z.min ex ey)) ->
  mx = my /\ ex = ey.
Proof.
  intros Hx Hy. unfold shl_align.
  destruct (Z.min ex ey - ex) as [|p|p] eqn:Ex;
    destruct (Z.min ex ey - ey) as [|q|q] eqn:Ey; simpl; try lia.
  - intros ->. rewrite digits2_pos_iter_xO in Hx.
    assert (ex = ey - Z.pos q) by lia. subst ex.
    rewrite Pos2Z.inj_add in Hx.
    replace (Z.pos (digits2_pos my) + Z.pos q + (ey - Z.pos q))
      with (Z.pos (digits2_pos my) + ey) in Hx by lia.
    lia.
  - intros <-. rewrite digits2_pos_iter_xO in Hy.
    assert (ey = ex - Z.pos p) by lia. subst ey.
    rewrite Pos2Z.inj_add in Hy.
    replace (Z.pos (digits2_pos mx) + Z.pos p + (ex - Z.pos p))
      with (Z.pos (digits2_pos mx) + ex) in Hy by lia.
    lia.
Qed.

Lemma binary_round_aux_negb s m e l :
  binary_round_aux prec emax (negb s) m e l = SFopp (binary_round_aux prec emax s m e l).
Proof.
  unfold binary_round_aux.
  destruct (shr_fexp _ _ m e l) as [mrs' e'].
  destruct (shr_fexp _ _ _ e' loc_Exact) as [mrs'' e''].
  destruct (shr_m mrs''); try done. by destruct (_ <=? _).
Qed.

End Rounding.

Section Arithmetic.
Local Open Scope float32_scope.
Implicit Types x y z d : spec_float.

Lemma sub_self x : Float32.is_finite x = true -> x - x = S754_zero false.
Proof.
  destruct x as [[]|[]| |s m e]; try done. intros _.
  unfold Float32.sub, SFsub. by rewrite Z.sub_diag.
Qed.

Lemma div_zero_l s y :
  Float32.is_nan y = false -> Float32.is_zero y = false ->
  exists s', S754_zero s / y = S754_zero s'.
Proof. destruct y; try done; intros _ _; simpl; eauto. Qed.

Lemma exponent_of_zero s :
  Float32.neg_half * S754_zero s * S754_zero s = S754_zero true.
Proof. by destruct s. Qed.

(** At the mean the exponent argument is [-0]. *)
Lemma exponent_at_mean a2 a3 :
  Float32.is_finite a2 = true ->
  Float32.is_nan a3 = false -> Float32.is_zero a3 = false ->
  Float32.neg_half * ((a2 - a2) / a3) * ((a2 - a2) / a3) = S754_zero true.
Proof.
  intros H2 Hn Hz. rewrite (sub_self _ H2).
  destruct (div_zero_l false a3 Hn Hz) as [s' ->].
  apply exponent_of_zero.
Qed.

(** Multiplication by [1.0f] is exact. *)
Lemma mul_one_r x : Float32.valid x = true -> x * Float32.one = x.
Proof.
  destruct x as [[]|[]| |s m e]; try done.
  unfold Float32.valid, valid_binary, bounded, canonical_mantissa.
  intros Hv. apply andb_prop in Hv as [Hc Hb].
  apply Z.eqb_eq in Hc.
  unfold Float32.mul, Float32.one, SFmul.
  rewrite xorb_false_r, Pos.mul_comm.
  set (p := (8388608 * m)%positive). cbv in p. subst p.
  unfold binary_round_aux, shr_fexp at 1.
  cbn [Zdigits2 digits2_pos shr_record_of_loc].
  replace (Z.pos (Pos.succ _) + (e + -23))%Z with (Z.pos (digits2_pos m) + e)%Z by lia.
  rewrite Hc.
  replace (e - (e + -23))%Z with 23%Z by lia.
  cbn [shr SpecFloat.iter_pos shr_1 orb loc_of_shr_record shr_m shr_r shr_s round_nearest_even].
  replace (e + -23 + 23)%Z with e by lia.
  unfold shr_fexp. cbn [Zdigits2 shr_record_of_loc]. rewrite Hc, Z.sub_diag.
  cbn [shr shr_m]. by rewrite Hb.
Qed.

Lemma mul_zero_r x s :
  Float32.is_finite x = true -> exists s', x * S754_zero s = S754_zero s'.
Proof. destruct x; try done; intros _; simpl; eauto. Qed.

(** [x != y] on numbers of the format: the difference is neither a zero
    nor a NaN. *)
Lemma sub_nonzero x y :
  Float32.valid x = true -> Float32.valid y = true ->
  Float32.is_nan x = false -> Float32.is_nan y = false ->
  Float32.eqb x y = false ->
  Float32.is_nonzero (x - y) = true.
Proof.
  destruct x as [sx|sx| |sx mx ex], y as [sy|sy| |sy my ey]; try done;
    try (by destruct sx, sy).
  intros Vx Vy _ _ Hne.
  unfold Float32.sub, SFsub.
  apply binary_normalize_nonzero.
  - intros Heq.
    assert (sx = sy /\ fst (shl_align mx ex (Z.min ex ey)) = fst (shl_align my ey (Z.min ex ey)))
      as [-> Hal].
    { destruct sx, sy; simpl in Heq; split; try done; lia. }
    destruct (aligned_eq _ _ _ _ (valid_finite _ _ _ Vx) (valid_finite _ _ _ Vy) Hal) as [-> ->].
    unfold Float32.eqb, SFeqb, SFcompare in Hne.
    rewrite Z.compare_refl, Pos.compare_cont_refl in Hne. by destruct sy.
  - apply valid_emin in Vx, Vy. lia.
Qed.

(** With a zero standard deviation and a non-zero deviation the exponent
    argument is [-inf]. *)
Lemma exponent_at_zero_sigma d a3 :
  Float32.is_nonzero d = true -> Float32.is_zero a3 = true ->
  Float32.neg_half * (d / a3) * (d / a3) = Float32.ninf.
Proof.
  destruct d as [| s | |s m e], a3 as [s3| | |]; try done; intros _ _; simpl;
    by destruct s, s3.
Qed.

(** With a zero standard deviation and no deviation it is a NaN: [0 / 0]. *)
Lemma exponent_at_zero_sigma_mean a2 a3 :
  Float32.is_finite a2 = true -> Float32.is_zero a3 = true ->
  Float32.neg_half * ((a2 - a2) / a3) * ((a2 - a2) / a3) = Float32.nan.
Proof.
  intros H2 H3. rewrite (sub_self _ H2). by destruct a3.
Qed.

Lemma opp_involutive x : Float32.opp (Float32.opp x) = x.
Proof. destruct x; simpl; by rewrite ?negb_involutive. Qed.

Lemma mul_opp_l x y : Float32.opp x * y = Float32.opp (x * y).
Proof.
  destruct x as [sx|sx| |sx mx ex], y as [sy|sy| |sy my ey]; simpl; try done;
    rewrite ?negb_xorb_l; try done.
  rewrite <- negb_xorb_l. apply binary_round_aux_negb.
Qed.

Lemma mul_opp_r x y : x * Float32.opp y = Float32.opp (x * y).
Proof.
  destruct x as [sx|sx| |sx mx ex], y as [sy|sy| |sy my ey]; simpl; try done;
    rewrite ?negb_xorb_r; try done.
  rewrite <- negb_xorb_r. apply binary_round_aux_negb.
Qed.

Lemma div_opp_l x y : Float32.opp x / y = Float32.opp (x / y).
Proof.
  destruct x as [sx|sx| |sx mx ex], y as [sy|sy| |sy my ey]; simpl; try done;
    rewrite ?negb_xorb_l; try done.
  destruct (SFdiv_core_binary _ _ _ _ _ _) as [[mz ez] lz].
  rewrite <- negb_xorb_l. apply binary_round_aux_negb.
Qed.

(** The exponent argument is even in the deviation from the mean. *)
Lemma exponent_even d a3 :
  Float32.neg_half * (Float32.opp d / a3) * (Float32.opp d / a3)
  = Float32.neg_half * (d / a3) * (d / a3).
Proof. by rewrite div_opp_l, !mul_opp_r, mul_opp_l, opp_involutive. Qed.

Lemma abs_eq_cases x y : Float32.abs y = Float32.abs x -> y = x \/ y = Float32.opp x.
Proof.
  destruct x as [sx|sx| |sx mx ex], y as [sy|sy| |sy my ey]; try done; simpl;
    intros Heq; try (injection Heq as -> ->);
    try destruct sx; try destruct sy; auto.
Qed.

(** It depends on the deviation through its magnitude only. *)
Lemma exponent_abs d d' a3 :
  Float32.abs d' = Float32.abs d ->
  Float32.neg_half * (d' / a3) * (d' / a3) = Float32.neg_half * (d / a3) * (d / a3).
Proof.
  intros Habs. destruct (abs_eq_cases _ _ Habs) as [->| ->]; [done|].
  apply exponent_even.
Qed.

End Arithmetic.

(** ** The Gaussian at its peak, mirrored, and with a zero deviation *)

Section Numerical.
Context `{Instantiation}.
Variable mem : gmap Z ElementCompute.
Local Open Scope float32_scope.

(** C5, for a finite mean. When [p2[i]] is finite, [p3[i]] is neither a
    zero nor a NaN, and the converted accumulator of lane [i] is [p2[i]],
    the exponent argument is [-0] and output lane [i] is the conversion of
    [p1[i] * expf(-0)]; with [expf(-0) = 1] that is the conversion of
    [p1[i]] itself. *)
Theorem C5_peak self junk accumulator i a a1 a2 a3 :
  length accumulator = kCount ->
  params_readable mem self kCount = true ->
  accumulator !! i = Some a ->
  load mem (p1_ self) (Z.of_nat i) = Some a1 ->
  load mem (p2_ self) (Z.of_nat i) = Some a2 ->
  load mem (p3_ self) (Z.of_nat i) = Some a3 ->
  accumulator_converter a = a2 ->
  Float32.is_finite a2 = true ->
  Float32.is_nan a3 = false ->
  Float32.is_zero a3 = false ->
  exists output,
    apply_fragment mem self junk accumulator = Some output /\
    output !! i = Some (destination_converter (a1 * expf (S754_zero true))) /\
    (expf (S754_zero true) = Float32.one -> Float32.valid a1 = true ->
     output !! i = Some (destination_converter a1)).
Proof.
  intros Hlen Hr Ha E1 E2 E3 Hx Hfin Hnan Hzero.
  destruct (apply_fragment_lane mem self junk accumulator i a a1 a2 a3)
    as (output & Hout & _ & Hi); try done.
  exists output. split; [done|].
  rewrite Hx, exponent_at_mean in Hi by done.
  split; [done|]. intros He Hv.
  by rewrite Hi, He, mul_one_r.
Qed.

(** Deviations of one magnitude, one output. *)
Lemma symmetry_of_equal_deviations self junk accumulator accumulator' i a a' a2 :
  length accumulator = kCount ->
  length accumulator' = kCount ->
  params_readable mem self kCount = true ->
  accumulator !! i = Some a ->
  accumulator' !! i = Some a' ->
  load mem (p2_ self) (Z.of_nat i) = Some a2 ->
  Float32.abs (a2 - accumulator_converter a') = Float32.abs (a2 - accumulator_converter a) ->
  exists output output',
    apply_fragment mem self junk accumulator = Some output /\
    apply_fragment mem self junk accumulator' = Some output' /\
    is_Some (output !! i) /\
    output !! i = output' !! i.
Proof.
  intros Hlen Hlen' Hr Ha Ha' E2 Hmirror.
  assert (Hi : i < kCount) by (rewrite <- Hlen; by eapply lookup_lt_Some).
  destruct (params_readable_lookup mem _ _ _ Hr Hi) as ([a1 E1] & _ & [a3 E3]).
  destruct (apply_fragment_lane mem self junk accumulator i a a1 a2 a3)
    as (output & Hout & _ & Ho); try done.
  destruct (apply_fragment_lane mem self junk accumulator' i a' a1 a2 a3)
    as (output' & Hout' & _ & Ho'); try done.
  exists output, output'. split; [done|]. split; [done|].
  split; [by rewrite Ho|].
  by rewrite Ho, Ho', (exponent_abs _ _ _ Hmirror).
Qed.

(** C6, for deviations of one magnitude. Two accumulators whose deviations
    from the mean, as computed in binary32, have the same magnitude,
    [|p2[i] - x'| = |p2[i] - x|], give the same output in lane [i]. *)
Theorem C6_symmetry self junk accumulator accumulator' i a a' a2 :
  length accumulator = kCount ->
  length accumulator' = kCount ->
  params_readable mem self kCount = true ->
  accumulator !! i = Some a ->
  accumulator' !! i = Some a' ->
  load mem (p2_ self) (Z.of_nat i) = Some a2 ->
  Float32.abs (a2 - accumulator_converter a') = Float32.abs (a2 - accumulator_converter a) ->
  exists output output',
    apply_fragment mem self junk accumulator = Some output /\
    apply_fragment mem self junk accumulator' = Some output' /\
    is_Some (output !! i) /\
    output !! i = output' !! i.
Proof. apply symmetry_of_equal_deviations. Qed.

(** C8, as the arithmetic goes. When [p3[i]] is a zero and the converted
    accumulator of lane [i] differs from [p2[i]] (both numbers of the
    format, neither a NaN), the quotient is an infinity, the exponent
    argument is [-inf], and the fragment form returns with the conversion
    of [p1[i] * expf(-inf)] in lane [i]; with [expf(-inf) = +0] and a
    finite [p1[i]] that is the conversion of a zero. *)
Theorem C8_zero_deviation self junk accumulator i a a1 a2 a3 :
  length accumulator = kCount ->
  params_readable mem self kCount = true ->
  accumulator !! i = Some a ->
  load mem (p1_ self) (Z.of_nat i) = Some a1 ->
  load mem (p2_ self) (Z.of_nat i) = Some a2 ->
  load mem (p3_ self) (Z.of_nat i) = Some a3 ->
  Float32.is_zero a3 = true ->
  Float32.valid a2 = true ->
  Float32.valid (accumulator_converter a) = true ->
  Float32.is_nan a2 = false ->
  Float32.is_nan (accumulator_converter a) = false ->
  Float32.eqb a2 (accumulator_converter a) = false ->
  exists output,
    apply_fragment mem self junk accumulator = Some output /\
    output !! i = Some (destination_converter (a1 * expf Float32.ninf)) /\
    (expf Float32.ninf = Float32.zero -> Float32.is_finite a1 = true ->
     exists s, output !! i = Some (destination_converter (S754_zero s))).
Proof.
  intros Hlen Hr Ha E1 E2 E3 Hzero V2 Vx N2 Nx Hne.
  destruct (apply_fragment_lane mem self junk accumulator i a a1 a2 a3)
    as (output & Hout & _ & Hi); try done.
  exists output. split; [done|].
  rewrite exponent_at_zero_sigma in Hi by (by try apply sub_nonzero).
  split; [done|]. intros He Hfin. rewrite Hi, He. unfold Float32.zero.
  destruct (mul_zero_r a1 false Hfin) as [s ->]. eauto.
Qed.

End Numerical.

(** The scenario of the spec at the mean: accumulator 1.0, output 2.0. *)
Lemma C5_peak_witness :
  exists output,
    @apply_fragment (float_instance 1) scenario_memory functor_at_16_32_48 no_junk [Float32.one]
      = Some output /\
    output !! 0 = Some two.
Proof.
  destruct (@C5_peak (float_instance 1) scenario_memory functor_at_16_32_48 no_junk
              [Float32.one] 0 Float32.one two Float32.one one_half)
    as (output & Hout & _ & Hpeak); try reflexivity.
  exists output. split; [exact Hout|]. apply Hpeak; reflexivity.
Defined.

(** An infinite mean: the accumulator equals [p2[0]] and [p3[0]] is 1.0, yet
    [inf - inf] is a NaN and so is the output, where [p1[0]] is 2.0. *)
Lemma C5_peak_counterexample :
  Float32.eqb Float32.one Float32.zero = false /\
  Float32.eqb Float32.pinf Float32.pinf = true /\
  @apply_fragment (float_instance 1) (memory_of [two] [Float32.pinf] [Float32.one])
    functor_at_16_32_48 no_junk [Float32.pinf]
  = Some [Float32.nan].
Proof. repeat split; vm_compute; reflexivity. Qed.

(** The scenario of the spec, accumulators 1.0 + 0.5 and 1.0 - 0.5. *)
Lemma C6_symmetry_witness :
  exists output output',
    @apply_fragment (float_instance 1) scenario_memory functor_at_16_32_48 no_junk
      [(Float32.one + one_half)%f32] = Some output /\
    @apply_fragment (float_instance 1) scenario_memory functor_at_16_32_48 no_junk
      [(Float32.one - one_half)%f32] = Some output' /\
    is_Some (output !! 0) /\
    output !! 0 = output' !! 0.
Proof.
  apply (@C6_symmetry (float_instance 1) scenario_memory functor_at_16_32_48 no_junk
           [(Float32.one + one_half)%f32] [(Float32.one - one_half)%f32] 0
           (Float32.one + one_half)%f32 (Float32.one - one_half)%f32 Float32.one);
    reflexivity.
Defined.

(** Mean 1.0, offset [2^-24], standard deviation [2^-24], amplitude 2.0:
    [1 + 2^-24] rounds to 1.0 and gives the peak 2.0, [1 - 2^-24] is a
    binary32 number one standard deviation away and gives
    [2 * exp(-0.5)]. *)
Lemma C6_symmetry_counterexample :
  Float32.eqb tiny Float32.zero = false /\
  @apply_fragment (float_instance 1) (memory_of [two] [Float32.one] [tiny])
    functor_at_16_32_48 no_junk [(Float32.one + tiny)%f32]
  = Some [two] /\
  @apply_fragment (float_instance 1) (memory_of [two] [Float32.one] [tiny])
    functor_at_16_32_48 no_junk [(Float32.one - tiny)%f32]
  = Some [S754_finite false 10175896 (-23)].
Proof. repeat split; vm_compute; reflexivity. Qed.

(** Amplitude 2.0, mean 1.0, standard deviation 0.0, accumulator 1.5. *)
Lemma C8_zero_deviation_witness :
  exists output,
    @apply_fragment (float_instance 1) (memory_of [two] [Float32.one] [Float32.zero])
      functor_at_16_32_48 no_junk [one_and_half] = Some output /\
    exists s, output !! 0 = Some (S754_zero s).
Proof.
  destruct (@C8_zero_deviation (float_instance 1) (memory_of [two] [Float32.one] [Float32.zero])
              functor_at_16_32_48 no_junk [one_and_half] 0 one_and_half two Float32.one
              Float32.zero)
    as (output & Hout & _ & Hzero); try reflexivity.
  exists output. split; [exact Hout|]. apply Hzero; reflexivity.
Defined.

(** The same input run: the output lane is [+0], a finite number. *)
Lemma C8_zero_deviation_counterexample :
  Float32.eqb one_and_half Float32.one = false /\
  @apply_fragment (float_instance 1) (memory_of [two] [Float32.one] [Float32.zero])
    functor_at_16_32_48 no_junk [one_and_half]
  = Some [Float32.zero] /\
  Float32.is_finite Float32.zero = true.
Proof. repeat split; vm_compute; reflexivity. Qed.

(** The three runs above do not hinge on the software exponential: whatever
    the exponential is, it is applied to a NaN for the infinite mean, to
    [-0] and to [-0.5] for the two accumulators about the mean 1.0, and to
    [-inf] for the zero standard deviation. *)
Lemma exponent_arguments_of_the_runs (exponential : spec_float -> spec_float) :
  @apply_fragment (float_instance_with exponential 1)
    (memory_of [two] [Float32.pinf] [Float32.one]) functor_at_16_32_48 no_junk
    [Float32.pinf]
  = Some [(two * exponential Float32.nan)%f32] /\
  @apply_fragment (float_instance_with exponential 1)
    (memory_of [two] [Float32.one] [tiny]) functor_at_16_32_48 no_junk
    [(Float32.one + tiny)%f32]
  = Some [(two * exponential (S754_zero true))%f32] /\
  @apply_fragment (float_instance_with exponential 1)
    (memory_of [two] [Float32.one] [tiny]) functor_at_16_32_48 no_junk
    [(Float32.one - tiny)%f32]
  = Some [(two * exponential Float32.neg_half)%f32] /\
  @apply_fragment (float_instance_with exponential 1)
    (memory_of [two] [Float32.one] [Float32.zero]) functor_at_16_32_48 no_junk
    [one_and_half]
  = Some [(two * exponential Float32.ninf)%f32].
Proof. repeat split; vm_compute; reflexivity. Qed.

(** ** Rounding to nearest even, on real values *)

Section Located.
Local Open Scope R_scope.

Lemma bpow_pos e : 0 < bpow e.
Proof. apply powerRZ_lt. lra. Qed.

Lemma bpow_add e1 e2 : bpow (e1 + e2) = bpow e1 * bpow e2.
Proof. apply powerRZ_add. lra. Qed.

Lemma bpow_succ e : bpow (e + 1) = 2 * bpow e.
Proof. rewrite bpow_add. unfold bpow at 2. simpl. lra. Qed.

Lemma bpow_le e1 e2 : (e1 <= e2)%Z -> bpow e1 <= bpow e2.
Proof.
  intros He. replace e2 with (e1 + (e2 - e1))%Z by lia.
  rewrite bpow_add.
  assert (1 <= bpow (e2 - e1)).
  { unfold bpow. destruct (e2 - e1)%Z eqn:E; simpl; try lia; [lra|].
    apply pow_R1_Rle. lra. }
  pose proof (bpow_pos e1). nra.
Qed.

Lemma bpow_IZR n : (0 <= n)%Z -> bpow n = IZR (2 ^ n).
Proof.
  intros Hn. unfold bpow. destruct n as [|p|p]; try lia; [done|].
  cbn [powerRZ]. by rewrite pow_IZR, positive_nat_Z.
Qed.

Lemma F2R_le m1 m2 e : (m1 <= m2)%Z -> F2R m1 e <= F2R m2 e.
Proof. intros Hm. unfold F2R. apply IZR_le in Hm. pose proof (bpow_pos e). nra. Qed.

Lemma F2R_lt_inv m1 m2 e : F2R m1 e < F2R m2 e -> (m1 < m2)%Z.
Proof.
  intros Hm. apply Z.nle_gt. intros Hle. apply (F2R_le _ _ e) in Hle. lra.
Qed.

Lemma F2R_succ m e : F2R (m + 1) e = F2R m e + bpow e.
Proof. unfold F2R. rewrite plus_IZR. lra. Qed.

Lemma located_bounds v m e l : located v m e l -> F2R m e <= v < F2R (m + 1) e.
Proof.
  rewrite F2R_succ. pose proof (bpow_pos e).
  destruct l as [|[]]; simpl; lra.
Qed.

Lemma IZR_xO p : IZR (Z.pos p~0) = 2 * IZR (Z.pos p).
Proof. by rewrite Pos2Z.inj_xO, mult_IZR. Qed.

Lemma IZR_xI p : IZR (Z.pos p~1) = 2 * IZR (Z.pos p) + 1.
Proof. by rewrite Pos2Z.inj_xI, plus_IZR, mult_IZR. Qed.

Lemma located_shr_1 v mrs e :
  (0 <= shr_m mrs)%Z ->
  located v (shr_m mrs) e (loc_of_shr_record mrs) ->
  located v (shr_m (shr_1 mrs)) (e + 1) (loc_of_shr_record (shr_1 mrs)).
Proof.
  destruct mrs as [m r s]. simpl. intros Hm.
  pose proof (bpow_pos e) as Hb.
  destruct m as [|[p|p|]|p]; try lia; destruct r, s; simpl; unfold F2R;
    rewrite bpow_succ, ?(IZR_xO p), ?(IZR_xI p); lra.
Qed.

Lemma located_shr_iter v p mrs e :
  (0 <= shr_m mrs)%Z ->
  located v (shr_m mrs) e (loc_of_shr_record mrs) ->
  located v (shr_m (SpecFloat.iter_pos shr_1 p mrs)) (e + Z.pos p)
    (loc_of_shr_record (SpecFloat.iter_pos shr_1 p mrs)).
Proof.
  revert mrs e. induction p as [p IH|p IH|]; intros mrs e Hm Hl; simpl.
  - replace (e + Z.pos p~1)%Z with (e + 1 + Z.pos p + Z.pos p)%Z by lia.
    apply IH; [apply shr_iter_nonneg, shr_1_nonneg, Hm|].
    apply IH; [apply shr_1_nonneg, Hm|]. by apply located_shr_1.
  - replace (e + Z.pos p~0)%Z with (e + Z.pos p + Z.pos p)%Z by lia.
    apply IH; [apply shr_iter_nonneg, Hm|]. by apply IH.
  - by apply located_shr_1.
Qed.

Lemma loc_of_shr_record_of_loc m l :
  loc_of_shr_record (shr_record_of_loc m l) = l.
Proof. by destruct l as [|[]]. Qed.

Lemma round_nearest_even_bounds m l :
  (m <= round_nearest_even m l <= m + 1)%Z.
Proof. destruct l as [|[]]; simpl; try lia. destruct (Z.even m); lia. Qed.

Lemma round_nearest_even_mono v1 v2 m1 m2 e l1 l2 :
  located v1 m1 e l1 -> located v2 m2 e l2 -> v1 <= v2 ->
  (round_nearest_even m1 l1 <= round_nearest_even m2 l2)%Z.
Proof.
  intros H1 H2 Hv.
  pose proof (round_nearest_even_bounds m1 l1).
  pose proof (round_nearest_even_bounds m2 l2).
  destruct (Z.lt_trichotomy m1 m2) as [Hlt|[->|Hgt]]; [lia| |].
  - pose proof (bpow_pos e).
    destruct l1 as [|[]], l2 as [|[]]; simpl in *; try lra; try lia;
      destruct (Z.even m2); lia.
  - apply located_bounds in H1, H2.
    assert (F2R (m2 + 1) e <= F2R m1 e) by (apply F2R_le; lia). lra.
Qed.

(** A grid point below (above) the value is below (above) its rounding. *)
Lemma round_nearest_even_ge v m e l k :
  located v m e l -> F2R k e <= v -> (k <= round_nearest_even m l)%Z.
Proof.
  intros Hl Hk. pose proof (round_nearest_even_bounds m l).
  apply located_bounds in Hl.
  assert (k < m + 1)%Z by (apply (F2R_lt_inv _ _ e); lra). lia.
Qed.

Lemma round_nearest_even_le v m e l k :
  located v m e l -> v <= F2R k e -> (round_nearest_even m l <= k)%Z.
Proof.
  intros Hl Hk. pose proof (round_nearest_even_bounds m l).
  destruct (Z.lt_trichotomy m k) as [Hlt|[->|Hgt]]; [lia| |].
  - pose proof (bpow_pos e). destruct l as [|[]]; simpl in *; try lia; lra.
  - apply located_bounds in Hl.
    assert (F2R (k + 1) e <= F2R m e) by (apply F2R_le; lia).
    rewrite F2R_succ in H0. pose proof (bpow_pos e). lra.
Qed.

End Located.

Section Round.
Local Open Scope Z_scope.

Lemma fexp32_eq z : fexp32 z = Z.max (z - 24) (-149).
Proof. reflexivity. Qed.

Lemma bpow_lt_inv e1 e2 : (bpow e1 < bpow e2)%R -> e1 < e2.
Proof.
  intros Hlt. apply Z.nle_gt. intros Hle. apply bpow_le in Hle. lra.
Qed.

Lemma digits2_pos_bounds p :
  (bpow (Z.pos (digits2_pos p) - 1) <= IZR (Z.pos p) < bpow (Z.pos (digits2_pos p)))%R.
Proof.
  induction p as [p IH|p IH|]; cbn [digits2_pos].
  - rewrite Pos2Z.inj_succ, IZR_xI.
    replace (Z.succ (Z.pos (digits2_pos p)) - 1) with (Z.pos (digits2_pos p) - 1 + 1) by lia.
    replace (Z.succ (Z.pos (digits2_pos p))) with (Z.pos (digits2_pos p) + 1) by lia.
    rewrite !bpow_succ. 
    assert (IZR (Z.pos p) + 1 <= bpow (Z.pos (digits2_pos p)))%R.
    { rewrite bpow_IZR by lia. rewrite <- plus_IZR. apply IZR_le.
      destruct IH as [_ IH]. rewrite bpow_IZR in IH by lia. apply lt_IZR in IH. lia. }
    lra.
  - rewrite Pos2Z.inj_succ, IZR_xO.
    replace (Z.succ (Z.pos (digits2_pos p)) - 1) with (Z.pos (digits2_pos p) - 1 + 1) by lia.
    replace (Z.succ (Z.pos (digits2_pos p))) with (Z.pos (digits2_pos p) + 1) by lia.
    rewrite !bpow_succ. lra.
  - unfold bpow. simpl. lra.
Qed.

Lemma Zdigits2_bounds m :
  0 < m -> (bpow (Zdigits2 m - 1) <= IZR m < bpow (Zdigits2 m))%R.
Proof. destruct m; try lia. intros _. apply digits2_pos_bounds. Qed.

Lemma Zdigits2_nonneg m : 0 <= Zdigits2 m.
Proof. destruct m; simpl; lia. Qed.

(** [m + 1 <= 2^digits], also for [m = 0]. *)
Lemma Zdigits2_succ_le m : 0 <= m -> (IZR (m + 1) <= bpow (Zdigits2 m))%R.
Proof.
  intros Hm. destruct (Z.eq_dec m 0) as [->|Hne].
  - change (1 <= 1)%R. lra.
  - destruct (Zdigits2_bounds m ltac:(lia)) as [_ Hlt].
    pose proof (Zdigits2_nonneg m).
    rewrite bpow_IZR in Hlt |- * by lia. apply lt_IZR in Hlt. apply IZR_le. lia.
Qed.

Lemma Zdigits2_le_lt m k : 0 <= m -> 0 <= k -> Zdigits2 m <= k -> m < 2 ^ k.
Proof.
  intros Hm Hk Hd. apply lt_IZR. rewrite <- bpow_IZR by lia.
  pose proof (Zdigits2_succ_le m Hm) as Hs. rewrite plus_IZR in Hs.
  pose proof (bpow_le _ _ Hd). lra.
Qed.

Lemma Zdigits2_ge m k : 0 < m -> k <= Zdigits2 m -> 2 ^ (k - 1) <= m \/ k <= 0.
Proof.
  intros Hm Hd. destruct (Z_le_gt_dec k 0); [by right|left].
  apply le_IZR. rewrite <- bpow_IZR by lia.
  destruct (Zdigits2_bounds m Hm) as [Hlo _].
  assert (Hle : k - 1 <= Zdigits2 m - 1) by lia. apply bpow_le in Hle. lra.
Qed.

(** The first shift of [binary_round_aux]. *)
Lemma shr_fexp_spec v m e l :
  0 <= m -> e <= fexp32 (Zdigits2 m + e) -> located v m e l ->
  exists m' l',
    shr_fexp Float32.prec Float32.emax m e l
      = (shr_record_of_loc m' l', fexp32 (Zdigits2 m + e)) /\
    0 <= m' /\ located v m' (fexp32 (Zdigits2 m + e)) l' /\
    Zdigits2 m' = Z.max 0 (Zdigits2 m - (fexp32 (Zdigits2 m + e) - e)).
Proof.
  intros Hm He Hl. unfold shr_fexp, shr.
  destruct (fexp32 (Zdigits2 m + e) - e) as [|p|p] eqn:Hp; try lia.
  - exists m, l. replace (fexp32 (Zdigits2 m + e)) with e by lia.
    pose proof (Zdigits2_nonneg m). repeat split; try done. lia.
  - set (mrs := SpecFloat.iter_pos shr_1 p (shr_record_of_loc m l)).
    exists (shr_m mrs), (loc_of_shr_record mrs).
    assert (Hm0 : 0 <= shr_m (shr_record_of_loc m l)) by by rewrite shr_m_of_loc.
    replace (fexp32 (Zdigits2 m + e)) with (e + Z.pos p) by lia.
    repeat split.
    + f_equal. by destruct mrs as [? [] []].
    + by apply shr_iter_nonneg.
    + apply located_shr_iter; [done|].
      by rewrite shr_m_of_loc, loc_of_shr_record_of_loc.
    + unfold mrs. rewrite shr_iter_digits, shr_m_of_loc. lia.
Qed.

Lemma BRA_spec s v m e l :
  0 <= m -> e <= fexp32 (Zdigits2 m + e) -> located v m e l ->
  exists m' l',
    0 <= m' /\ located v m' (fexp32 (Zdigits2 m + e)) l' /\
    Zdigits2 m' = Z.max 0 (Zdigits2 m - (fexp32 (Zdigits2 m + e) - e)) /\
    BRA s m e l = round_result s (round_nearest_even m' l') (fexp32 (Zdigits2 m + e)).
Proof.
  intros Hm He Hl.
  destruct (shr_fexp_spec v m e l Hm He Hl) as (m' & l' & Hs & Hm' & Hl' & Hd).
  exists m', l'. repeat split; try done.
  unfold binary_round_aux, round_result. rewrite Hs.
  by rewrite shr_m_of_loc, loc_of_shr_record_of_loc.
Qed.

Lemma round_result_zero s T : round_result s 0 T = S754_zero s.
Proof.
  unfold round_result, shr_fexp, shr. cbn [Zdigits2 shr_record_of_loc].
  destruct (fexp32 (0 + T) - T) as [|p|p]; cbn [shr_m]; try done.
  pose proof (shr_iter_digits p {| shr_m := 0; shr_r := false; shr_s := false |}) as Hd.
  pose proof (shr_iter_nonneg p {| shr_m := 0; shr_r := false; shr_s := false |}) as Hn.
  cbn [shr_m Zdigits2] in Hd, Hn.
  destruct (shr_m _) as [|q|q]; try done; simpl in Hd; lia.
Qed.

Lemma round_result_small s n T :
  -149 <= T -> Zdigits2 (Z.pos n) <= 24 ->
  round_result s (Z.pos n) T
  = if T <=? 104 then S754_finite s n T else S754_infinity s.
Proof.
  intros HT Hd. unfold round_result, shr_fexp, shr. cbn [shr_record_of_loc].
  rewrite fexp32_eq.
  destruct (Z.max _ _ - T) as [|p|p] eqn:Hp; try lia; done.
Qed.

Lemma round_result_carry s T :
  -149 <= T ->
  round_result s 16777216 T
  = if T + 1 <=? 104 then S754_finite s 8388608 (T + 1) else S754_infinity s.
Proof.
  intros HT. unfold round_result, shr_fexp, shr. cbn [shr_record_of_loc Zdigits2 digits2_pos].
  rewrite fexp32_eq.
  replace (Z.max _ _ - T) with 1 by (simpl; lia). done.
Qed.

End Round.

Section Mono.
Local Open Scope Z_scope.

Lemma ale_finite s1 m1 e1 s2 m2 e2 :
  ale (S754_finite s1 m1 e1) (S754_finite s2 m2 e2)
  <-> e1 < e2 \/ (e1 = e2 /\ Z.pos m1 <= Z.pos m2).
Proof.
  unfold ale, SFleb, SFcompare. cbn [SFabs].
  destruct (Z.compare_spec e1 e2) as [->|Hlt|Hgt].
  - change (Pos.compare_cont Eq m1 m2) with (Pos.compare m1 m2).
    destruct (Pos.compare_spec m1 m2); split; intros; try done; try lia.
  - split; [lia|done].
  - split; [done|lia].
Qed.

Lemma ale_zero_l s y : Float32.is_nan y = false -> ale (S754_zero s) y.
Proof. by destruct y. Qed.

Lemma ale_inf_r x s : Float32.is_nan x = false -> ale x (S754_infinity s).
Proof. by destruct x. Qed.

Ltac ale_cases :=
  repeat match goal with |- context [(?a <=? ?b)%Z] => destruct (Z.leb_spec a b) end;
  first [ lia | exact eq_refl | apply ale_finite; lia ].

Lemma Zdigits2_lt n k : 0 < n < 2 ^ k -> 0 <= k -> Zdigits2 n <= k.
Proof.
  intros [Hn Hlt] Hk.
  destruct (Zdigits2_bounds n Hn) as [Hlo _].
  apply IZR_lt in Hlt. rewrite <- bpow_IZR in Hlt by done.
  assert (Zdigits2 n - 1 < k) by (apply bpow_lt_inv; lra). lia.
Qed.

Lemma round_result_cases s n T :
  0 <= n <= 16777216 -> -149 <= T ->
  (n = 0 /\ round_result s n T = S754_zero s)
  \/ (exists p, n = Z.pos p /\ n < 16777216 /\
        round_result s n T = if T <=? 104 then S754_finite s p T else S754_infinity s)
  \/ (n = 16777216 /\
        round_result s n T
        = if T + 1 <=? 104 then S754_finite s 8388608 (T + 1) else S754_infinity s).
Proof.
  intros Hn HT.
  destruct (Z.eq_dec n 0) as [->|Hn0]; [left; split; [done|apply round_result_zero]|].
  destruct (Z.eq_dec n 16777216) as [->|Hn1];
    [right; right; split; [done|by apply round_result_carry]|].
  right; left. destruct n as [|p|p]; try lia.
  exists p. repeat split; [lia|].
  apply round_result_small; [done|].
  apply (Zdigits2_lt (Z.pos p) 24); lia.
Qed.

Lemma round_result_not_nan s n T :
  0 <= n <= 16777216 -> -149 <= T -> Float32.is_nan (round_result s n T) = false.
Proof.
  intros Hn HT.
  destruct (round_result_cases s n T Hn HT) as [[_ ->]|[(p & _ & _ & ->)|[_ ->]]];
    try done; by destruct (_ <=? _).
Qed.

Lemma round_result_mono s1 s2 n1 n2 T :
  0 <= n1 <= n2 -> n2 <= 16777216 -> -149 <= T ->
  ale (round_result s1 n1 T) (round_result s2 n2 T).
Proof.
  intros Hn1 Hn2 HT.
  pose proof (round_result_not_nan s2 n2 T ltac:(lia) HT) as Hnan.
  destruct (round_result_cases s1 n1 T ltac:(lia) HT)
    as [[_ ->]|[(p1 & -> & Hp1 & ->)|[-> ->]]];
    [by apply ale_zero_l|..];
    clear Hnan;
    destruct (round_result_cases s2 n2 T ltac:(lia) HT)
      as [[-> _]|[(p2 & -> & Hp2 & ->)|[-> ->]]]; try lia; ale_cases.
Qed.

Lemma round_result_lt s1 s2 n1 n2 T1 T2 :
  0 <= n1 <= 16777216 -> 8388608 <= n2 <= 16777216 -> -149 <= T1 < T2 ->
  ale (round_result s1 n1 T1) (round_result s2 n2 T2).
Proof.
  intros Hn1 Hn2 HT.
  pose proof (round_result_not_nan s2 n2 T2 ltac:(lia) ltac:(lia)) as Hnan.
  destruct (round_result_cases s1 n1 T1 ltac:(lia) ltac:(lia))
    as [[_ ->]|[(p1 & -> & Hp1 & ->)|[-> ->]]];
    [by apply ale_zero_l|..];
    clear Hnan;
    destruct (round_result_cases s2 n2 T2 ltac:(lia) ltac:(lia))
      as [[-> _]|[(p2 & -> & Hp2 & ->)|[-> ->]]]; try lia; ale_cases.
Qed.

(** What [binary_round_aux] returns for a value [v] located by [(m, e, l)]
    with [e] at or below the canonical exponent [T]: [v] rounded to nearest
    even on the grid of [T], renormalised. *)
Lemma BRA_rounds s v m e l :
  0 <= m -> e <= fexp32 (Zdigits2 m + e) -> located v m e l ->
  let T := fexp32 (Zdigits2 m + e) in
  exists m' l',
    located v m' T l' /\ 0 <= m' < 16777216 /\ (-149 < T -> 8388608 <= m') /\
    BRA s m e l = round_result s (round_nearest_even m' l') T.
Proof.
  intros Hm He Hl T.
  destruct (BRA_spec s v m e l Hm He Hl) as (m' & l' & Hm' & Hl' & Hd & HB).
  fold T in Hl', Hd, HB. exists m', l'.
  assert (HT : T = Z.max (Zdigits2 m + e - 24) (-149)) by reflexivity.
  split; [done|]. split; [|split; [|done]].
  - split; [done|]. apply (Zdigits2_le_lt m' 24); lia.
  - intros HT'. assert (Hd24 : Zdigits2 m' = 24) by lia.
    assert (0 < m') by (destruct m'; simpl in *; lia).
    destruct (Zdigits2_ge m' 24 ltac:(done) ltac:(lia)); lia.
Qed.

Lemma fexp32_mono a b : a <= b -> fexp32 a <= fexp32 b.
Proof. rewrite !fexp32_eq. lia. Qed.

Lemma canonical_exponent_mono v1 v2 m1 e1 l1 m2 e2 l2 :
  0 <= m1 -> 0 <= m2 ->
  e1 <= fexp32 (Zdigits2 m1 + e1) ->
  located v1 m1 e1 l1 -> located v2 m2 e2 l2 -> (v1 <= v2)%R ->
  fexp32 (Zdigits2 m1 + e1) <= fexp32 (Zdigits2 m2 + e2).
Proof.
  intros Hm1 Hm2 He1 Hl1 Hl2 Hv.
  destruct (Z.eq_dec m1 0) as [->|Hne].
  - rewrite !fexp32_eq in *. simpl in *. lia.
  - apply fexp32_mono.
    destruct (Zdigits2_bounds m1 ltac:(lia)) as [Hlo _].
    pose proof (Zdigits2_succ_le m2 Hm2) as Hhi.
    apply located_bounds in Hl1, Hl2. unfold F2R in *.
    pose proof (bpow_pos e1). pose proof (bpow_pos e2).
    assert (bpow (Zdigits2 m1 + e1 - 1) < bpow (Zdigits2 m2 + e2))%R.
    { replace (Zdigits2 m1 + e1 - 1) with (Zdigits2 m1 - 1 + e1) by lia.
      rewrite !bpow_add. nra. }
    apply bpow_lt_inv in H1. lia.
Qed.

(** Rounding is monotone. *)
Lemma BRA_mono s1 s2 v1 v2 m1 e1 l1 m2 e2 l2 :
  0 <= m1 -> 0 <= m2 ->
  e1 <= fexp32 (Zdigits2 m1 + e1) -> e2 <= fexp32 (Zdigits2 m2 + e2) ->
  located v1 m1 e1 l1 -> located v2 m2 e2 l2 -> (v1 <= v2)%R ->
  ale (BRA s1 m1 e1 l1) (BRA s2 m2 e2 l2).
Proof.
  intros Hm1 Hm2 He1 He2 Hl1 Hl2 Hv.
  pose proof (canonical_exponent_mono _ _ _ _ _ _ _ _ Hm1 Hm2 He1 Hl1 Hl2 Hv) as HT.
  destruct (BRA_rounds s1 v1 m1 e1 l1 Hm1 He1 Hl1) as (m1' & l1' & Hl1' & Hb1 & Hn1 & ->).
  destruct (BRA_rounds s2 v2 m2 e2 l2 Hm2 He2 Hl2) as (m2' & l2' & Hl2' & Hb2 & Hn2 & ->).
  pose proof (round_nearest_even_bounds m1' l1').
  pose proof (round_nearest_even_bounds m2' l2').
  assert (-149 <= fexp32 (Zdigits2 m1 + e1)) by (rewrite fexp32_eq; lia).
  destruct (Z.eq_dec (fexp32 (Zdigits2 m1 + e1)) (fexp32 (Zdigits2 m2 + e2))) as [Heq|Hne].
  - rewrite Heq in *. apply round_result_mono; try lia.
    split; [lia|]. by eapply round_nearest_even_mono.
  - apply round_result_lt; lia.
Qed.

Lemma BRA_not_nan s v m e l :
  0 <= m -> e <= fexp32 (Zdigits2 m + e) -> located v m e l ->
  Float32.is_nan (BRA s m e l) = false.
Proof.
  intros Hm He Hl.
  destruct (BRA_rounds s v m e l Hm He Hl) as (m' & l' & Hl' & Hb & Hn & ->).
  pose proof (round_nearest_even_bounds m' l').
  apply round_result_not_nan; [lia|rewrite fexp32_eq; lia].
Qed.

Lemma valid_finite_intro s m e :
  Z.max (Z.pos (digits2_pos m) + e - 24) (-149) = e -> e <= 104 ->
  Float32.valid (S754_finite s m e) = true.
Proof.
  intros Hc He. unfold Float32.valid, valid_binary, bounded, canonical_mantissa.
  apply andb_true_intro. split; [apply Z.eqb_eq; exact Hc|apply Z.leb_le; exact He].
Qed.

(** The result is a number of the format. *)
Lemma BRA_valid s v m e l :
  0 <= m -> e <= fexp32 (Zdigits2 m + e) -> located v m e l ->
  Float32.valid (BRA s m e l) = true.
Proof.
  intros Hm He Hl.
  destruct (BRA_rounds s v m e l Hm He Hl) as (m' & l' & Hl' & Hb & Hn & ->).
  pose proof (round_nearest_even_bounds m' l') as Hr.
  set (T := fexp32 (Zdigits2 m + e)) in *.
  assert (HT : -149 <= T) by (unfold T; rewrite fexp32_eq; lia).
  destruct (round_result_cases s (round_nearest_even m' l') T ltac:(lia) HT)
    as [[_ ->]|[(p & Hp & Hlt & ->)|[_ ->]]]; [done|..].
  - destruct (Z.leb_spec T 104) as [HT104|HT104]; [|done].
    apply valid_finite_intro; [|done].
    assert (Hd : Zdigits2 (Z.pos p) <= 24) by (apply Zdigits2_lt; lia).
    cbn [Zdigits2] in Hd.
    destruct (Z.eq_dec T (-149)) as [->|HTne]; [lia|].
    assert (8388608 <= Z.pos p) by lia.
    assert (Hge : 24 <= Zdigits2 (Z.pos p)).
    { destruct (Zdigits2_bounds (Z.pos p) ltac:(lia)) as [_ Hhi].
      assert (bpow 23 < bpow (Zdigits2 (Z.pos p)))%R.
      { rewrite (bpow_IZR 23) by lia. apply IZR_le in H. simpl in H. 
        change (2 ^ 23) with 8388608. lra. }
      apply bpow_lt_inv in H0. lia. }
    cbn [Zdigits2] in Hge. lia.
  - destruct (Z.leb_spec (T + 1) 104) as [HT104|HT104]; [|done].
    apply valid_finite_intro; [|done].
    cbn [digits2_pos Pos.succ]. lia.
Qed.

End Mono.

(** ** Monotone arithmetic *)

Section Ops.
Local Open Scope Z_scope.

Lemma valid_cases s m e :
  Float32.valid (S754_finite s m e) = true ->
  -149 <= e <= 104 /\ Z.pos (digits2_pos m) <= 24 /\
  (e = -149 \/ Z.pos (digits2_pos m) = 24).
Proof.
  unfold Float32.valid, valid_binary, bounded, canonical_mantissa.
  intros Hv. apply andb_prop in Hv as [Hc Hb].
  apply Z.eqb_eq in Hc. apply Z.leb_le in Hb. rewrite fexp32_eq in Hc.
  change (Float32.emax - Float32.prec) with 104 in Hb. lia.
Qed.

Lemma F2R_pos_bounds m e :
  (bpow (Z.pos (digits2_pos m) - 1 + e) <= F2R (Z.pos m) e
   < bpow (Z.pos (digits2_pos m) + e))%R.
Proof.
  rewrite !bpow_add. unfold F2R.
  pose proof (digits2_pos_bounds m). pose proof (bpow_pos e). nra.
Qed.

(** On numbers of the format the order of magnitudes is the order of the
    values. *)
Lemma ale_F2R s1 m1 e1 s2 m2 e2 :
  Float32.valid (S754_finite s1 m1 e1) = true ->
  Float32.valid (S754_finite s2 m2 e2) = true ->
  ale (S754_finite s1 m1 e1) (S754_finite s2 m2 e2) ->
  (F2R (Z.pos m1) e1 <= F2R (Z.pos m2) e2)%R.
Proof.
  intros V1 V2 Hle. apply valid_cases in V1, V2.
  apply ale_finite in Hle as [Hlt|[-> Hm]]; [|by apply F2R_le].
  pose proof (F2R_pos_bounds m1 e1) as [_ H1].
  pose proof (F2R_pos_bounds m2 e2) as [H2 _].
  assert (Hb : Z.pos (digits2_pos m1) + e1 <= Z.pos (digits2_pos m2) - 1 + e2) by lia.
  apply bpow_le in Hb. lra.
Qed.

Lemma located_exact m e : located (F2R m e) m e loc_Exact.
Proof. reflexivity. Qed.

Lemma F2R_mul m1 e1 m2 e2 :
  F2R (m1 * m2) (e1 + e2) = (F2R m1 e1 * F2R m2 e2)%R.
Proof. unfold F2R. rewrite mult_IZR, bpow_add. ring. Qed.

Lemma F2R_pos m e : (0 < F2R (Z.pos m) e)%R.
Proof.
  unfold F2R. pose proof (bpow_pos e).
  assert (0 < IZR (Z.pos m))%R by (apply IZR_lt; lia). nra.
Qed.

(** The exact product of two numbers of the format has its exponent at or
    below the canonical one. *)
Lemma mul_exponent sx mx ex sy my ey :
  Float32.valid (S754_finite sx mx ex) = true ->
  Float32.valid (S754_finite sy my ey) = true ->
  ex + ey <= fexp32 (Zdigits2 (Z.pos (mx * my)) + (ex + ey)).
Proof.
  intros Vx Vy. apply valid_cases in Vx, Vy. rewrite fexp32_eq. cbn [Zdigits2].
  pose proof (digits2_pos_bounds mx) as [Hx _].
  pose proof (digits2_pos_bounds my) as [Hy _].
  pose proof (digits2_pos_bounds (mx * my)) as [_ Hxy].
  rewrite Pos2Z.inj_mul, mult_IZR in Hxy.
  pose proof (bpow_pos (Z.pos (digits2_pos mx) - 1)).
  pose proof (bpow_pos (Z.pos (digits2_pos my) - 1)).
  assert (bpow (Z.pos (digits2_pos mx) - 1 + (Z.pos (digits2_pos my) - 1))
          < bpow (Z.pos (digits2_pos (mx * my))))%R.
  { rewrite bpow_add. nra. }
  apply bpow_lt_inv in H1. lia.
Qed.

Lemma mul_finite_mono sx1 mx1 ex1 sy1 my1 ey1 sx2 mx2 ex2 sy2 my2 ey2 :
  Float32.valid (S754_finite sx1 mx1 ex1) = true ->
  Float32.valid (S754_finite sy1 my1 ey1) = true ->
  Float32.valid (S754_finite sx2 mx2 ex2) = true ->
  Float32.valid (S754_finite sy2 my2 ey2) = true ->
  ale (S754_finite sx1 mx1 ex1) (S754_finite sx2 mx2 ex2) ->
  ale (S754_finite sy1 my1 ey1) (S754_finite sy2 my2 ey2) ->
  ale (Float32.mul (S754_finite sx1 mx1 ex1) (S754_finite sy1 my1 ey1))
      (Float32.mul (S754_finite sx2 mx2 ex2) (S754_finite sy2 my2 ey2)).
Proof.
  intros Vx1 Vy1 Vx2 Vy2 Hx Hy. unfold Float32.mul, SFmul.
  apply (BRA_mono _ _ (F2R (Z.pos (mx1 * my1)) (ex1 + ey1))
                    (F2R (Z.pos (mx2 * my2)) (ex2 + ey2))); try done.
  - by eapply mul_exponent.
  - by eapply mul_exponent.
  - rewrite !Pos2Z.inj_mul, !F2R_mul.
    pose proof (ale_F2R _ _ _ _ _ _ Vx1 Vx2 Hx).
    pose proof (ale_F2R _ _ _ _ _ _ Vy1 Vy2 Hy).
    pose proof (F2R_pos mx1 ex1). pose proof (F2R_pos my1 ey1). nra.
Qed.

Lemma mul_finite_not_nan sx mx ex sy my ey :
  Float32.valid (S754_finite sx mx ex) = true ->
  Float32.valid (S754_finite sy my ey) = true ->
  Float32.is_nan (Float32.mul (S754_finite sx mx ex) (S754_finite sy my ey)) = false.
Proof.
  intros Vx Vy. unfold Float32.mul, SFmul.
  apply (BRA_not_nan _ (F2R (Z.pos (mx * my)) (ex + ey))); try done.
  by eapply mul_exponent.
Qed.

Lemma mul_valid x y :
  Float32.valid x = true -> Float32.valid y = true -> Float32.valid (Float32.mul x y) = true.
Proof.
  destruct x as [sx|sx| |sx mx ex], y as [sy|sy| |sy my ey]; try done.
  intros Vx Vy. unfold Float32.mul, SFmul.
  apply (BRA_valid _ (F2R (Z.pos (mx * my)) (ex + ey))); try done.
  by eapply mul_exponent.
Qed.

(** Multiplication is monotone in the magnitudes of both factors. *)
Lemma mul_mono x1 y1 x2 y2 :
  Float32.valid x1 = true -> Float32.valid y1 = true ->
  Float32.valid x2 = true -> Float32.valid y2 = true ->
  ale x1 x2 -> ale y1 y2 ->
  Float32.is_nan (Float32.mul x1 y1) = false ->
  Float32.is_nan (Float32.mul x2 y2) = false ->
  ale (Float32.mul x1 y1) (Float32.mul x2 y2).
Proof.
  intros Vx1 Vy1 Vx2 Vy2 Hx Hy N1 N2.
  destruct x1 as [sx1|sx1| |sx1 mx1 ex1], y1 as [sy1|sy1| |sy1 my1 ey1]; try done;
    destruct x2 as [sx2|sx2| |sx2 mx2 ex2], y2 as [sy2|sy2| |sy2 my2 ey2]; try done;
    try (by apply ale_zero_l); try (by apply ale_inf_r).
  by apply mul_finite_mono.
Qed.

End Ops.

Section Div.
Local Open Scope Z_scope.

Lemma bpow_sub e1 e2 : (bpow (e1 - e2) = bpow e1 / bpow e2)%R.
Proof.
  pose proof (bpow_pos e2).
  replace e1 with (e1 - e2 + e2) at 2 by lia. rewrite bpow_add. field. lra.
Qed.

(** The remainder of a division by [d], read as a position in the unit
    interval. *)
Lemma new_location_spec d r q e :
  0 < d -> 0 <= r < d ->
  located ((IZR q + IZR r / IZR d) * bpow e)%R q e (new_location d r).
Proof.
  intros Hd Hr.
  assert (Hd' : (0 < IZR d)%R) by (apply IZR_lt; lia).
  set (x := (IZR r / IZR d)%R).
  assert (Hx : (x * IZR d = IZR r)%R) by (unfold x; field; lra).
  pose proof (bpow_pos e) as Hb.
  clearbody x.
  unfold new_location, new_location_even, new_location_odd.
  destruct (Z.even d) eqn:Hev; destruct (Z.eqb_spec r 0) as [->|Hr0].
  - unfold located, F2R. replace x with 0%R by nra. lra.
  - assert (0 < IZR r)%R by (apply IZR_lt; lia).
    destruct (Z.compare_spec (2 * r) d) as [Heq|Hlt|Hgt].
    + apply (f_equal IZR) in Heq. rewrite mult_IZR in Heq.
      unfold located, F2R. replace x with (1 / 2)%R by nra. lra.
    + apply IZR_lt in Hlt. rewrite mult_IZR in Hlt.
      unfold located, F2R. assert (0 < x < 1 / 2)%R by nra. nra.
    + apply IZR_lt in Hgt. rewrite mult_IZR in Hgt.
      assert (IZR r < IZR d)%R by (apply IZR_lt; lia).
      unfold located, F2R. assert (1 / 2 < x < 1)%R by nra. nra.
  - unfold located, F2R. replace x with 0%R by nra. lra.
  - assert (0 < IZR r)%R by (apply IZR_lt; lia).
    assert (Hodd : 2 * r <> d).
    { intros <-. rewrite Z.even_mul in Hev. done. }
    assert (IZR r < IZR d)%R by (apply IZR_lt; lia).
    destruct (Z.compare_spec (2 * r + 1) d) as [Heq|Hlt|Hgt].
    + assert (Hlt : 2 * r < d) by lia.
      apply IZR_lt in Hlt. rewrite mult_IZR in Hlt.
      unfold located, F2R. assert (0 < x < 1 / 2)%R by nra. nra.
    + assert (Hlt' : 2 * r < d) by lia.
      apply IZR_lt in Hlt'. rewrite mult_IZR in Hlt'.
      unfold located, F2R. assert (0 < x < 1 / 2)%R by nra. nra.
    + assert (Hgt' : d < 2 * r) by lia.
      apply IZR_lt in Hgt'. rewrite mult_IZR in Hgt'.
      unfold located, F2R. assert (1 / 2 < x < 1)%R by nra. nra.
Qed.

Lemma div_core_spec mx ex my ey :
  exists q e' l,
    SFdiv_core_binary Float32.prec Float32.emax (Z.pos mx) ex (Z.pos my) ey = (q, e', l) /\
    0 <= q /\
    located (F2R (Z.pos mx) ex / F2R (Z.pos my) ey)%R q e' l /\
    e' <= fexp32 (Zdigits2 q + e').
Proof.
  unfold SFdiv_core_binary.
  set (G := Zdigits2 (Z.pos mx) + ex - (Zdigits2 (Z.pos my) + ey)).
  set (e' := Z.min (fexp32 G) (ex - ey)).
  set (s := ex - ey - e').
  assert (Hs : 0 <= s) by (unfold s, e'; lia).
  set (m' := match s with Z.pos _ => Z.shiftl (Z.pos mx) s | 0 => Z.pos mx | Z.neg _ => 0 end).
  assert (Hm' : m' = Z.pos mx * 2 ^ s).
  { unfold m'. destruct s as [|p|p]; try lia.
    - by rewrite Z.shiftl_mul_pow2. }
  pose proof (Z.div_eucl_eq m' (Z.pos my) ltac:(done)) as Hdiv.
  pose proof (Z.mod_pos_bound m' (Z.pos my) ltac:(done)) as Hmod.
  unfold Z.modulo in Hmod.
  destruct (Z.div_eucl m' (Z.pos my)) as [q r].
  assert (Hpow : 0 < 2 ^ s) by (apply Z.pow_pos_nonneg; lia).
  assert (Hq : 0 <= q) by nia.
  exists q, e', (new_location (Z.pos my) r).
  split; [done|]. split; [done|].
  assert (Hy : (0 < IZR (Z.pos my))%R) by (apply IZR_lt; lia).
  assert (Hval : (F2R (Z.pos mx) ex / F2R (Z.pos my) ey
                  = (IZR q + IZR r / IZR (Z.pos my)) * bpow e')%R).
  { unfold F2R.
    assert (He : (bpow ex = bpow s * bpow e' * bpow ey)%R).
    { rewrite <- !bpow_add. f_equal. unfold s. lia. }
    assert (Hm : (IZR (Z.pos mx) * bpow s = IZR (Z.pos my) * IZR q + IZR r)%R).
    { rewrite bpow_IZR by done. rewrite <- !mult_IZR, <- plus_IZR. f_equal. lia. }
    rewrite He. pose proof (bpow_pos ey). pose proof (bpow_pos e').
    field_simplify_eq; [|lra]. 
    replace (IZR (Z.pos mx) * bpow s * bpow e' * bpow ey)%R
      with ((IZR (Z.pos mx) * bpow s) * (bpow e' * bpow ey))%R by ring.
    rewrite Hm. ring. }
  split.
  - rewrite Hval. apply new_location_spec; lia.
  - (* enough digits in the quotient *)
    assert (Hdq : G - e' <= Zdigits2 q).
    { pose proof (Zdigits2_succ_le q Hq) as Hhi. rewrite plus_IZR in Hhi.
      pose proof (digits2_pos_bounds mx) as [Hx _].
      pose proof (digits2_pos_bounds my) as [_ Hy'].
      assert (Hm : (IZR (Z.pos mx) * bpow s = IZR (Z.pos my) * IZR q + IZR r)%R).
      { rewrite bpow_IZR by done. rewrite <- !mult_IZR, <- plus_IZR. f_equal. lia. }
      assert (Hr : (IZR r < IZR (Z.pos my))%R) by (apply IZR_lt; lia).
      assert (Hq' : (0 <= IZR q)%R) by (apply IZR_le; lia).
      pose proof (bpow_pos s). pose proof (bpow_pos (Z.pos (digits2_pos mx) - 1)).
      pose proof (bpow_pos (Z.pos (digits2_pos my))).
      assert (Hlt : (bpow (Z.pos (digits2_pos mx) - 1 + s)
                     < bpow (Z.pos (digits2_pos my) + Zdigits2 q))%R).
      { rewrite !bpow_add. nra. }
      apply bpow_lt_inv in Hlt. unfold G, s. cbn [Zdigits2]. lia. }
    transitivity (fexp32 G); [unfold e'; lia|].
    apply fexp32_mono. lia.
Qed.

Lemma div_finite_mono s1 m1 e1 s2 m2 e2 s3 m3 e3 :
  Float32.valid (S754_finite s1 m1 e1) = true ->
  Float32.valid (S754_finite s2 m2 e2) = true ->
  ale (S754_finite s1 m1 e1) (S754_finite s2 m2 e2) ->
  ale (Float32.div (S754_finite s1 m1 e1) (S754_finite s3 m3 e3))
      (Float32.div (S754_finite s2 m2 e2) (S754_finite s3 m3 e3)).
Proof.
  intros V1 V2 Hle. unfold Float32.div, SFdiv.
  destruct (div_core_spec m1 e1 m3 e3) as (q1 & e1' & l1 & -> & Hq1 & Hl1 & He1).
  destruct (div_core_spec m2 e2 m3 e3) as (q2 & e2' & l2 & -> & Hq2 & Hl2 & He2).
  eapply BRA_mono; eauto.
  pose proof (ale_F2R _ _ _ _ _ _ V1 V2 Hle).
  pose proof (F2R_pos m3 e3). pose proof (F2R_pos m1 e1).
  apply Rmult_le_compat_r; [|done].
  apply Rlt_le, Rinv_0_lt_compat. done.
Qed.

Lemma div_finite_not_nan s1 m1 e1 s3 m3 e3 :
  Float32.is_nan (Float32.div (S754_finite s1 m1 e1) (S754_finite s3 m3 e3)) = false.
Proof.
  unfold Float32.div, SFdiv.
  destruct (div_core_spec m1 e1 m3 e3) as (q1 & e1' & l1 & -> & Hq1 & Hl1 & He1).
  eapply BRA_not_nan; eauto.
Qed.

Lemma div_valid x y :
  Float32.valid x = true -> Float32.valid y = true -> Float32.valid (Float32.div x y) = true.
Proof.
  destruct x as [sx|sx| |sx mx ex], y as [sy|sy| |sy my ey]; try done.
  intros _ _. unfold Float32.div, SFdiv.
  destruct (div_core_spec mx ex my ey) as (q1 & e1' & l1 & -> & Hq1 & Hl1 & He1).
  eapply BRA_valid; eauto.
Qed.

(** Division by a finite non-zero number is monotone in the magnitude of
    the dividend. *)
Lemma div_mono x1 x2 s3 m3 e3 :
  Float32.valid x1 = true -> Float32.valid x2 = true ->
  Float32.is_nan x1 = false -> 
  ale x1 x2 ->
  ale (Float32.div x1 (S754_finite s3 m3 e3)) (Float32.div x2 (S754_finite s3 m3 e3)).
Proof.
  intros V1 V2 N1 Hle.
  destruct x1 as [s1|s1| |s1 m1 e1]; try done;
    destruct x2 as [s2|s2| |s2 m2 e2]; try done.
  - apply ale_zero_l, div_finite_not_nan.
  - apply ale_inf_r, div_finite_not_nan.
  - by apply div_finite_mono.
Qed.

End Div.

Section Sub.
Local Open Scope Z_scope.

Lemma pos_iter_xO m d : Z.pos (Pos.iter xO m d) = Z.pos m * 2 ^ Z.pos d.
Proof.
  induction d as [|d IH] using Pos.peano_ind.
  - simpl. lia.
  - rewrite Pos.iter_succ, Pos2Z.inj_xO, IH, Pos2Z.inj_succ, Z.pow_succ_r by lia. lia.
Qed.

Lemma F2R_shift m e d : 0 <= d -> F2R (m * 2 ^ d) (e - d) = F2R m e.
Proof.
  intros Hd. unfold F2R. rewrite mult_IZR, <- bpow_IZR by done.
  replace e with (d + (e - d)) at 2 by lia. rewrite bpow_add. ring.
Qed.

(** Aligning to a smaller exponent keeps the value. *)
Lemma shl_align_value m e e' :
  e' <= e ->
  F2R (Z.pos (fst (shl_align m e e'))) e' = F2R (Z.pos m) e.
Proof.
  intros He. unfold shl_align.
  destruct (e' - e) as [|d|d] eqn:Hd; cbn [fst]; try lia.
  - by replace e' with e by lia.
  - rewrite pos_iter_xO. replace e' with (e - Z.pos d) by lia.
    by apply F2R_shift.
Qed.

Lemma F2R_cond_Zopp s m e : F2R (cond_Zopp s m) e = (if s then - F2R m e else F2R m e)%R.
Proof. destruct s; simpl; [|done]. unfold F2R. rewrite opp_IZR. ring. Qed.

Lemma F2R_sub m1 m2 e : F2R (m1 - m2) e = (F2R m1 e - F2R m2 e)%R.
Proof. unfold F2R. rewrite minus_IZR. ring. Qed.

(** The difference of two finite numbers is the rounding of an exact
    integer difference at the smaller exponent. *)
Lemma sub_finite_exact sa ma ea sx mx ex :
  exists z,
    Float32.sub (S754_finite sa ma ea) (S754_finite sx mx ex)
      = binary_normalize Float32.prec Float32.emax z (Z.min ea ex) false /\
    F2R z (Z.min ea ex) = (B2R (S754_finite sa ma ea) - B2R (S754_finite sx mx ex))%R.
Proof.
  eexists. split; [reflexivity|].
  rewrite F2R_sub, !F2R_cond_Zopp, !shl_align_value by lia.
  simpl. by rewrite !F2R_cond_Zopp.
Qed.

(** [binary_round] is [binary_round_aux] on an aligned mantissa. *)
Lemma binary_round_spec s m e :
  exists mz ez,
    binary_round Float32.prec Float32.emax s m e = BRA s (Z.pos mz) ez loc_Exact /\
    F2R (Z.pos mz) ez = F2R (Z.pos m) e /\
    ez <= fexp32 (Zdigits2 (Z.pos mz) + ez).
Proof.
  unfold binary_round, shl_align. cbn [Zdigits2].
  destruct (fexp32 (Z.pos (digits2_pos m) + e) - e) as [|d|d] eqn:Hd.
  - exists m, e. repeat split. lia.
  - exists m, e. repeat split. lia.
  - exists (Pos.iter xO m d), (fexp32 (Z.pos (digits2_pos m) + e)).
    split; [done|]. split.
    + rewrite pos_iter_xO.
      replace (fexp32 (Z.pos (digits2_pos m) + e)) with (e - Z.pos d) by lia.
      by apply F2R_shift.
    + rewrite digits2_pos_iter_xO, Pos2Z.inj_add.
      replace (Z.pos (digits2_pos m) + Z.pos d + fexp32 (Z.pos (digits2_pos m) + e))
        with (Z.pos (digits2_pos m) + e) by lia.
      lia.
Qed.

(** A non-zero integer at some exponent is normalised by
    [binary_round_aux], applied to its magnitude. *)
Lemma binary_normalize_spec z e :
  z <> 0 ->
  exists s mz ez,
    binary_normalize Float32.prec Float32.emax z e false = BRA s (Z.pos mz) ez loc_Exact /\
    F2R (Z.pos mz) ez = Rabs (F2R z e) /\
    ez <= fexp32 (Zdigits2 (Z.pos mz) + ez).
Proof.
  intros Hz. pose proof (bpow_pos e) as Hb.
  destruct z as [|p|p]; [done|..]; cbn [binary_normalize].
  - destruct (binary_round_spec false p e) as (mz & ez & -> & Hv & He).
    exists false, mz, ez. repeat split; try done.
    rewrite Hv, Rabs_pos_eq; [done|]. apply Rlt_le, F2R_pos.
  - destruct (binary_round_spec true p e) as (mz & ez & -> & Hv & He).
    exists true, mz, ez. repeat split; try done.
    rewrite Hv. change (Z.neg p) with (- Z.pos p).
    unfold F2R at 2. rewrite opp_IZR.
    replace (- IZR (Z.pos p) * bpow e)%R with (- F2R (Z.pos p) e)%R by (unfold F2R; ring).
    rewrite Rabs_Ropp, Rabs_pos_eq; [done|]. apply Rlt_le, F2R_pos.
Qed.

Lemma binary_normalize_not_nan z e :
  Float32.is_nan (binary_normalize Float32.prec Float32.emax z e false) = false.
Proof.
  destruct (Z.eq_dec z 0) as [->|Hz]; [done|].
  destruct (binary_normalize_spec z e Hz) as (s & mz & ez & -> & Hv & He).
  apply (BRA_not_nan _ (F2R (Z.pos mz) ez)); [lia|done|apply located_exact].
Qed.

Lemma binary_normalize_valid z e :
  Float32.valid (binary_normalize Float32.prec Float32.emax z e false) = true.
Proof.
  destruct (Z.eq_dec z 0) as [->|Hz]; [done|].
  destruct (binary_normalize_spec z e Hz) as (s & mz & ez & -> & Hv & He).
  apply (BRA_valid _ (F2R (Z.pos mz) ez)); [lia|done|apply located_exact].
Qed.

(** Normalisation is monotone in the magnitude of the value. *)
Lemma binary_normalize_mono z1 e1 z2 e2 :
  (Rabs (F2R z1 e1) <= Rabs (F2R z2 e2))%R ->
  ale (binary_normalize Float32.prec Float32.emax z1 e1 false)
      (binary_normalize Float32.prec Float32.emax z2 e2 false).
Proof.
  intros Hle.
  destruct (Z.eq_dec z1 0) as [->|Hz1];
    [apply ale_zero_l, binary_normalize_not_nan|].
  destruct (binary_normalize_spec z1 e1 Hz1) as (s1 & m1 & q1 & -> & Hv1 & He1).
  assert (Hz2 : z2 <> 0).
  { intros ->. unfold F2R at 2 in Hle. rewrite Rmult_0_l, Rabs_R0 in Hle.
    rewrite <- Hv1 in Hle. pose proof (F2R_pos m1 q1). lra. }
  destruct (binary_normalize_spec z2 e2 Hz2) as (s2 & m2 & q2 & -> & Hv2 & He2).
  apply (BRA_mono _ _ (F2R (Z.pos m1) q1) (F2R (Z.pos m2) q2));
    try lia; try done; try apply located_exact.
  by rewrite Hv1, Hv2.
Qed.

(** A number of the format is its own rounding. *)
Lemma binary_normalize_id s m e :
  Float32.valid (S754_finite s m e) = true ->
  binary_normalize Float32.prec Float32.emax (cond_Zopp s (Z.pos m)) e false
  = S754_finite s m e.
Proof.
  intros Hv. pose proof (valid_cases _ _ _ Hv) as (He & Hd & Hc).
  assert (Hf : fexp32 (Z.pos (digits2_pos m) + e) = e) by (rewrite fexp32_eq; lia).
  assert (binary_round Float32.prec Float32.emax s m e = S754_finite s m e) as Hr.
  { unfold binary_round, shl_align. rewrite Hf, Z.sub_diag.
    unfold binary_round_aux, shr_fexp. cbn [Zdigits2 shr_record_of_loc].
    rewrite Hf, Z.sub_diag. cbn [shr shr_m loc_of_shr_record round_nearest_even Zdigits2].
    rewrite Hf, Z.sub_diag. cbn [shr shr_m].
    destruct (Z.leb_spec e (Float32.emax - Float32.prec)); [done|].
    change (Float32.emax - Float32.prec) with 104 in *. lia. }
  by destruct s.
Qed.

End Sub.

Section Chain.
Local Open Scope Z_scope.

Lemma ale_refl x : Float32.is_nan x = false -> ale x x.
Proof. destruct x; try done. intros _. apply ale_finite. lia. Qed.

(** On zeros and finite numbers of the format, [<=] is the order of the
    values. *)
Lemma leb_B2R x y :
  Float32.valid x = true -> Float32.valid y = true ->
  Float32.is_finite x = true -> Float32.is_finite y = true ->
  Float32.leb x y = true -> (B2R x <= B2R y)%R.
Proof.
  destruct x as [sx| | |sx mx ex], y as [sy| | |sy my ey]; try done;
    intros Vx Vy _ _ Hle; cbn [B2R].
  - destruct sy; [done|]. apply Rlt_le, F2R_pos.
  - destruct sx; [|done]. rewrite F2R_cond_Zopp. pose proof (F2R_pos mx ex). lra.
  - rewrite !F2R_cond_Zopp.
    pose proof (F2R_pos mx ex). pose proof (F2R_pos my ey).
    destruct sx, sy; try done; try lra.
    + assert (ale (S754_finite true my ey) (S754_finite true mx ex)) as Ha.
      { apply ale_finite. unfold Float32.leb, SFleb, SFcompare in Hle.
        destruct (Z.compare_spec ex ey); try done; try lia.
        change (Pos.compare_cont Eq mx my) with (Pos.compare mx my) in Hle.
        destruct (Pos.compare_spec mx my); try done; lia. }
      pose proof (ale_F2R _ _ _ _ _ _ Vy Vx Ha). lra.
    + assert (ale (S754_finite false mx ex) (S754_finite false my ey)) as Ha by exact Hle.
      by apply (ale_F2R _ _ _ _ _ _ Vx Vy).
Qed.

(** The magnitude of a difference of zeros and finite numbers. *)
Lemma sub_magnitude a x :
  Float32.valid a = true -> Float32.valid x = true ->
  Float32.is_finite a = true -> Float32.is_finite x = true ->
  exists z e,
    SFabs (Float32.sub a x) = SFabs (binary_normalize Float32.prec Float32.emax z e false) /\
    F2R z e = (B2R a - B2R x)%R.
Proof.
  destruct a as [sa| | |sa ma ea], x as [sx| | |sx mx ex]; try done;
    intros Va Vx _ _.
  - exists 0, 0. split; [by destruct sa, sx|]. unfold F2R. simpl. lra.
  - exists (cond_Zopp (negb sx) (Z.pos mx)), ex. split.
    + rewrite binary_normalize_id by done. reflexivity.
    + cbn [B2R]. rewrite !F2R_cond_Zopp. destruct sx; simpl; lra.
  - exists (cond_Zopp sa (Z.pos ma)), ea. split.
    + rewrite binary_normalize_id by done. reflexivity.
    + cbn [B2R]. lra.
  - destruct (sub_finite_exact sa ma ea sx mx ex) as (z & -> & Hz). eauto.
Qed.

Lemma sub_not_nan a x :
  Float32.is_finite a = true -> Float32.is_nan x = false ->
  Float32.is_nan (Float32.sub a x) = false.
Proof.
  destruct a as [sa| | |sa ma ea], x as [sx|sx| |sx mx ex]; try done;
    intros _ _; try (by destruct sa, sx).
  apply binary_normalize_not_nan.
Qed.

Lemma sub_valid a x :
  Float32.valid a = true -> Float32.valid x = true ->
  Float32.valid (Float32.sub a x) = true.
Proof.
  destruct a as [sa|sa| |sa ma ea], x as [sx|sx| |sx mx ex]; try done;
    intros Va Vx; try (by destruct sa, sx).
  apply binary_normalize_valid.
Qed.

(** Moving away from [a] on one side makes the difference larger in
    magnitude. *)
Lemma sub_mono a x1 x2 :
  Float32.valid a = true -> Float32.valid x1 = true -> Float32.valid x2 = true ->
  Float32.is_finite a = true ->
  Float32.leb a x1 = true -> Float32.leb x1 x2 = true ->
  ale (Float32.sub a x1) (Float32.sub a x2).
Proof.
  intros Va V1 V2 Fa H1 H2.
  assert (N1 : Float32.is_nan x1 = false) by by destruct a, x1.
  assert (N2 : Float32.is_nan x2 = false) by by destruct x1, x2.
  destruct (Float32.is_finite x2) eqn:F2.
  - assert (F1 : Float32.is_finite x1 = true).
    { destruct x1 as [|[]| |]; try done; by destruct a, x2. }
    destruct (sub_magnitude a x1 Va V1 Fa F1) as (z1 & e1 & Hs1 & Hz1).
    destruct (sub_magnitude a x2 Va V2 Fa F2) as (z2 & e2 & Hs2 & Hz2).
    unfold ale. rewrite Hs1, Hs2. apply binary_normalize_mono.
    rewrite Hz1, Hz2.
    pose proof (leb_B2R a x1 Va V1 Fa F1 H1).
    pose proof (leb_B2R x1 x2 V1 V2 F1 F2 H2).
    rewrite !Rabs_left1 by lra. lra.
  - destruct x2 as [|s2| |]; try done.
    replace (Float32.sub a (S754_infinity s2)) with (S754_infinity (negb s2))
      by by destruct a.
    apply ale_inf_r. by apply sub_not_nan.
Qed.

Lemma BRA_sign s m e l :
  Float32.is_nan (BRA s m e l) = false -> sign_bit (BRA s m e l) = s.
Proof.
  unfold binary_round_aux.
  destruct (shr_fexp _ _ m e l) as [mrs' e'].
  destruct (shr_fexp _ _ _ e' loc_Exact) as [mrs'' e''].
  destruct (shr_m mrs''); try done. by destruct (_ <=? _).
Qed.

Lemma mul_sign x y :
  Float32.is_nan (Float32.mul x y) = false ->
  sign_bit (Float32.mul x y) = xorb (sign_bit x) (sign_bit y).
Proof.
  destruct x as [sx|sx| |sx mx ex], y as [sy|sy| |sy my ey]; try done.
  apply BRA_sign.
Qed.

Lemma mul_not_nan x y :
  Float32.valid x = true -> Float32.valid y = true ->
  Float32.is_nan x = false -> Float32.is_finite y = true -> Float32.is_zero y = false ->
  Float32.is_nan (Float32.mul x y) = false.
Proof.
  destruct x as [sx|sx| |sx mx ex], y as [sy|sy| |sy my ey]; try done.
  intros; by apply mul_finite_not_nan.
Qed.

Lemma div_not_nan x s3 m3 e3 :
  Float32.is_nan x = false ->
  Float32.is_nan (Float32.div x (S754_finite s3 m3 e3)) = false.
Proof. destruct x; try done. intros _. apply div_finite_not_nan. Qed.

(** The exponent argument of a deviation [u] is never a NaN and carries a
    minus sign. *)
Lemma exponent_not_nan u :
  Float32.valid u = true -> Float32.is_nan u = false ->
  Float32.is_nan (Float32.mul (Float32.mul Float32.neg_half u) u) = false.
Proof.
  intros Vu Nu. destruct u as [su|su| |su mu eu]; try done.
  apply mul_not_nan; try done.
  - by apply mul_valid.
  - by apply mul_finite_not_nan.
Qed.

Lemma exponent_sign u :
  Float32.valid u = true -> Float32.is_nan u = false ->
  sign_bit (Float32.mul (Float32.mul Float32.neg_half u) u) = true.
Proof.
  intros Vu Nu. rewrite mul_sign by by apply exponent_not_nan.
  rewrite mul_sign.
  - simpl. by destruct (sign_bit u).
  - destruct u; try done. by apply mul_finite_not_nan.
Qed.

Lemma neg_half_mul_not_nan u :
  Float32.valid u = true -> Float32.is_nan u = false ->
  Float32.is_nan (Float32.mul Float32.neg_half u) = false.
Proof. intros Vu Nu. destruct u; try done. by apply mul_finite_not_nan. Qed.

(** The exponent argument grows in magnitude with the deviation. *)
Lemma exponent_mono u1 u2 :
  Float32.valid u1 = true -> Float32.valid u2 = true ->
  Float32.is_nan u1 = false -> Float32.is_nan u2 = false ->
  ale u1 u2 ->
  ale (Float32.mul (Float32.mul Float32.neg_half u1) u1)
      (Float32.mul (Float32.mul Float32.neg_half u2) u2).
Proof.
  intros V1 V2 N1 N2 Hle.
  apply mul_mono; try done; try (by apply mul_valid);
    try (by apply exponent_not_nan).
  apply mul_mono; try done; by apply neg_half_mul_not_nan.
Qed.

(** Among numbers with a minus sign the larger magnitude is the smaller
    number. *)
Lemma leb_of_ale_neg x y :
  sign_bit x = true -> sign_bit y = true ->
  Float32.is_nan x = false -> Float32.is_nan y = false ->
  ale x y -> Float32.leb y x = true.
Proof.
  destruct x as [sx|sx| |sx mx ex], y as [sy|sy| |sy my ey]; try done;
    simpl; intros -> -> _ _ Hle; try done.
  apply ale_finite in Hle. unfold Float32.leb, SFleb, SFcompare.
  destruct (Z.compare_spec ey ex); try done; try lia.
  change (Pos.compare_cont Eq my mx) with (Pos.compare my mx).
  destruct (Pos.compare_spec my mx); try done; lia.
Qed.

Lemma leb_neg_zero x :
  sign_bit x = true -> Float32.is_nan x = false -> Float32.leb x Float32.zero = true.
Proof. destruct x; try done; simpl; by intros ->. Qed.

(** Among numbers without a minus sign [<=] is the order of magnitudes. *)
Lemma ale_of_leb_nonneg x y :
  Float32.leb Float32.zero x = true -> Float32.leb x y = true -> ale x y.
Proof.
  destruct x as [sx|sx| |sx mx ex], y as [sy|sy| |sy my ey]; try done;
    try (by destruct sx); try (by destruct sy); try (by destruct sx, sy).
Qed.

End Chain.

(** ** Mirror images about the mean *)

Section Mirror.
Context `{Instantiation}.
Variable mem : gmap Z spec_float.
Local Open Scope float32_scope.

Lemma ale_antisym x y :
  ale x y -> ale y x -> Float32.abs x = Float32.abs y.
Proof.
  destruct x as [sx|sx| |sx mx ex], y as [sy|sy| |sy my ey]; try done.
  intros H1 H2. apply ale_finite in H1, H2. simpl.
  assert (ex = ey) as -> by lia. assert (mx = my) as -> by lia. done.
Qed.

(** Accumulators that are mirror images about the mean, as real numbers,
    have deviations of one magnitude. *)
Lemma mirror_deviation a x x' :
  Float32.valid a = true -> Float32.valid x = true -> Float32.valid x' = true ->
  Float32.is_finite a = true -> Float32.is_finite x = true -> Float32.is_finite x' = true ->
  (B2R x + B2R x' = 2 * B2R a)%R ->
  Float32.abs (a - x') = Float32.abs (a - x).
Proof.
  intros Va Vx Vx' Fa Fx Fx' Hmirror.
  unfold Float32.abs.
  destruct (sub_magnitude a x Va Vx Fa Fx) as (z & e & -> & Hz).
  destruct (sub_magnitude a x' Va Vx' Fa Fx') as (z' & e' & -> & Hz').
  assert (Hv : (F2R z' e' = - F2R z e)%R) by lra.
  apply ale_antisym; apply binary_normalize_mono; rewrite Hv, Rabs_Ropp; lra.
Qed.

(** When both [p2[i] + d] and [p2[i] - d] are binary32 numbers, the two
    accumulators give the same output. *)
Lemma symmetry_of_mirror_images self junk accumulator accumulator' i a a' a2 :
  length accumulator = kCount ->
  length accumulator' = kCount ->
  params_readable mem self kCount = true ->
  accumulator !! i = Some a ->
  accumulator' !! i = Some a' ->
  load mem (p2_ self) (Z.of_nat i) = Some a2 ->
  Float32.valid a2 = true -> Float32.is_finite a2 = true ->
  Float32.valid (accumulator_converter a) = true ->
  Float32.is_finite (accumulator_converter a) = true ->
  Float32.valid (accumulator_converter a') = true ->
  Float32.is_finite (accumulator_converter a') = true ->
  (B2R (accumulator_converter a) + B2R (accumulator_converter a') = 2 * B2R a2)%R ->
  exists output output',
    apply_fragment mem self junk accumulator = Some output /\
    apply_fragment mem self junk accumulator' = Some output' /\
    is_Some (output !! i) /\
    output !! i = output' !! i.
Proof.
  intros Hlen Hlen' Hr Ha Ha' E2 V2 F2 Vx Fx Vx' Fx' Hmirror.
  apply (symmetry_of_equal_deviations mem self junk accumulator accumulator' i a a' a2);
    try done.
  by apply mirror_deviation.
Qed.

End Mirror.

(** ** Decay away from the mean *)

Section Decay.
Context `{Instantiation}.
Variable mem : gmap Z spec_float.
Local Open Scope float32_scope.

Lemma exponent_argument_decay a2 a3 x1 x2 :
  Float32.valid a2 = true -> Float32.is_finite a2 = true ->
  Float32.valid a3 = true -> Float32.is_finite a3 = true -> Float32.is_zero a3 = false ->
  Float32.valid x1 = true -> Float32.valid x2 = true ->
  Float32.leb a2 x1 = true -> Float32.leb x1 x2 = true ->
  Float32.leb (exponent_argument a2 a3 x2) (exponent_argument a2 a3 x1) = true /\
  Float32.leb (exponent_argument a2 a3 x1) Float32.zero = true.
Proof.
  intros V2 F2 V3 F3 Z3 Vx1 Vx2 H1 H2.
  destruct a3 as [| | |s3 m3 e3]; try done.
  assert (N1 : Float32.is_nan x1 = false) by by destruct a2, x1.
  assert (N2 : Float32.is_nan x2 = false) by by destruct x1, x2.
  pose proof (sub_mono a2 x1 x2 V2 Vx1 Vx2 F2 H1 H2) as Ht.
  pose proof (sub_valid a2 x1 V2 Vx1) as Vt1.
  pose proof (sub_valid a2 x2 V2 Vx2) as Vt2.
  pose proof (sub_not_nan a2 x1 F2 N1) as Nt1.
  pose proof (sub_not_nan a2 x2 F2 N2) as Nt2.
  pose proof (div_mono _ _ s3 m3 e3 Vt1 Vt2 Nt1 Ht) as Hu.
  pose proof (div_valid _ _ Vt1 V3) as Vu1.
  pose proof (div_valid _ _ Vt2 V3) as Vu2.
  pose proof (div_not_nan _ s3 m3 e3 Nt1) as Nu1.
  pose proof (div_not_nan _ s3 m3 e3 Nt2) as Nu2.
  pose proof (exponent_mono _ _ Vu1 Vu2 Nu1 Nu2 Hu) as Harg.
  unfold exponent_argument. split.
  - apply leb_of_ale_neg; try done;
      try (by apply exponent_sign); by apply exponent_not_nan.
  - apply leb_neg_zero; [by apply exponent_sign|by apply exponent_not_nan].
Qed.

Lemma amplitude_decay a1 e1 e2 :
  Float32.valid a1 = true -> Float32.is_finite a1 = true ->
  Float32.valid e1 = true -> Float32.valid e2 = true ->
  Float32.is_finite e1 = true ->
  Float32.leb Float32.zero e2 = true -> Float32.leb e2 e1 = true ->
  Float32.leb (Float32.abs (a1 * e2)) (Float32.abs (a1 * e1)) = true.
Proof.
  intros Va Fa V1 V2 F1 H0 Hle.
  pose proof (ale_of_leb_nonneg _ _ H0 Hle) as Ha.
  assert (F2 : Float32.is_finite e2 = true).
  { destruct e2 as [|[]| |]; try done; by destruct e1. }
  apply mul_mono; try done.
  - apply ale_refl. by destruct a1.
  - destruct a1, e2; try done. by apply mul_finite_not_nan.
  - destruct a1, e1; try done. by apply mul_finite_not_nan.
Qed.

(** C7, for finite parameters. For finite [p1[i]], [p2[i]] and a finite non-zero
    [p3[i]], and two converted accumulators [x] and [x'] of lane [i] with
    [p2[i] <= x <= x'], the exponent arguments are ordered,
    [arg' <= arg <= 0]; and when the exponential is ordered on them,
    [0 <= expf(arg') <= expf(arg)] with [expf(arg)] finite, the value
    converted into output lane [i] for [x] is at least as large in
    magnitude as the one for [x']. *)
Theorem C7_decay self junk accumulator accumulator' i a a' a1 a2 a3 :
  length accumulator = kCount ->
  length accumulator' = kCount ->
  params_readable mem self kCount = true ->
  accumulator !! i = Some a ->
  accumulator' !! i = Some a' ->
  load mem (p1_ self) (Z.of_nat i) = Some a1 ->
  load mem (p2_ self) (Z.of_nat i) = Some a2 ->
  load mem (p3_ self) (Z.of_nat i) = Some a3 ->
  Float32.valid a1 = true -> Float32.is_finite a1 = true ->
  Float32.valid a2 = true -> Float32.is_finite a2 = true ->
  Float32.valid a3 = true -> Float32.is_finite a3 = true -> Float32.is_zero a3 = false ->
  Float32.valid (accumulator_converter a) = true ->
  Float32.valid (accumulator_converter a') = true ->
  Float32.leb a2 (accumulator_converter a) = true ->
  Float32.leb (accumulator_converter a) (accumulator_converter a') = true ->
  Float32.valid (expf (exponent_argument a2 a3 (accumulator_converter a))) = true ->
  Float32.valid (expf (exponent_argument a2 a3 (accumulator_converter a'))) = true ->
  Float32.is_finite (expf (exponent_argument a2 a3 (accumulator_converter a))) = true ->
  Float32.leb Float32.zero (expf (exponent_argument a2 a3 (accumulator_converter a'))) = true ->
  Float32.leb (expf (exponent_argument a2 a3 (accumulator_converter a')))
              (expf (exponent_argument a2 a3 (accumulator_converter a))) = true ->
  Float32.leb (exponent_argument a2 a3 (accumulator_converter a'))
              (exponent_argument a2 a3 (accumulator_converter a)) = true /\
  Float32.leb (exponent_argument a2 a3 (accumulator_converter a)) Float32.zero = true /\
  exists output output' v v',
    apply_fragment mem self junk accumulator = Some output /\
    apply_fragment mem self junk accumulator' = Some output' /\
    output !! i = Some (destination_converter v) /\
    output' !! i = Some (destination_converter v') /\
    Float32.leb (Float32.abs v') (Float32.abs v) = true.
Proof.
  intros Hlen Hlen' Hr Ha Ha' E1 E2 E3 V1 F1 V2 F2 V3 F3 Z3 Vx Vx' Hx Hxx'
    Ve Ve' Fe He0 Hee.
  destruct (exponent_argument_decay a2 a3 _ _ V2 F2 V3 F3 Z3 Vx Vx' Hx Hxx') as [Harg Hneg].
  split; [done|]. split; [done|].
  destruct (apply_fragment_lane mem self junk accumulator i a a1 a2 a3)
    as (output & Hout & _ & Ho); try done.
  destruct (apply_fragment_lane mem self junk accumulator' i a' a1 a2 a3)
    as (output' & Hout' & _ & Ho'); try done.
  eexists output, output', _, _.
  split; [done|]. split; [done|]. split; [exact Ho|]. split; [exact Ho'|].
  by apply amplitude_decay.
Qed.

End Decay.

(** The scenario of the spec, accumulators 1.5 and 2.0. *)
Lemma C7_decay_witness :
  exists output output' v v',
    @apply_fragment (float_instance 1) scenario_memory functor_at_16_32_48 no_junk
      [one_and_half] = Some output /\
    @apply_fragment (float_instance 1) scenario_memory functor_at_16_32_48 no_junk
      [two] = Some output' /\
    output !! 0 = Some v /\ output' !! 0 = Some v' /\
    Float32.leb (Float32.abs v') (Float32.abs v) = true.
Proof.
  apply (@C7_decay (float_instance 1) scenario_memory functor_at_16_32_48 no_junk
           [one_and_half] [two] 0 one_and_half two two Float32.one one_half);
    reflexivity.
Defined.

(** An infinite amplitude: at the mean the output is [inf * 1 = inf]; 128
    standard deviations away the exponential is 0 and [inf * 0] is a NaN,
    which no magnitude bounds. *)
Lemma C7_decay_counterexample :
  Float32.eqb one_half Float32.zero = false /\
  @apply_fragment (float_instance 1) (memory_of [Float32.pinf] [Float32.one] [one_half])
    functor_at_16_32_48 no_junk [Float32.one] = Some [Float32.pinf] /\
  @apply_fragment (float_instance 1) (memory_of [Float32.pinf] [Float32.one] [one_half])
    functor_at_16_32_48 no_junk [sixty_five] = Some [Float32.nan] /\
  Float32.leb (Float32.abs Float32.nan) (Float32.abs Float32.pinf) = false.
Proof. repeat split; vm_compute; reflexivity. Qed.

(** ** Further properties of the call operators *)

Section Lanes.
Context `{Instantiation}.
Variable mem : gmap Z spec_float.
Local Open Scope float32_scope.

Lemma mapM_fmap_after {A B C} (f : A -> option B) (g : B -> C) (l : list A) :
  (vs ← mapM f l; Some (g <$> vs)) = mapM (fun x => g <$> f x) l.
Proof.
  induction l as [|x l IH]; simpl; [done|].
  destruct (f x) as [y|]; simpl; [|done].
  rewrite <- IH. by destruct (mapM f l).
Qed.

Lemma mapM_ext_seq {B} (f g : nat -> option B) n :
  (forall i, i < n -> f i = g i) -> mapM f (seq 0 n) = mapM g (seq 0 n).
Proof.
  intros Hfg. assert (Hall : forall i, i ∈ seq 0 n -> f i = g i).
  { intros i Hi. apply elem_of_seq in Hi. apply Hfg. lia. }
  induction (seq 0 n) as [|x l IH]; simpl; [done|].
  rewrite Hall by apply list_elem_of_here.
  destruct (g x); simpl; [|done].
  rewrite IH; [done|]. intros i Hi. apply Hall. by apply list_elem_of_further.
Qed.

Lemma lane_value_as_scalar self accumulator i :
  destination_converter <$> lane_value mem self (accumulator_converter <$> accumulator) i
  = a ← accumulator !! i; apply_scalar mem self a (Z.of_nat i).
Proof.
  destruct (accumulator !! i) as [a|] eqn:Ha; simpl.
  - by apply lane_value_scalar.
  - unfold lane_value. by rewrite list_lookup_fmap, Ha.
Qed.

Lemma apply_fragment_as_scalar self junk accumulator :
  apply_fragment mem self junk accumulator
  = mapM (fun i => a ← accumulator !! i; apply_scalar mem self a (Z.of_nat i))
      (seq 0 kCount).
Proof.
  rewrite apply_fragment_lanes, mapM_fmap_after.
  apply mapM_ext_seq. intros i _. apply lane_value_as_scalar.
Qed.

(** X1. The fragment forms are the scalar forms run over the lanes 0, 1,
    ..., [kCount - 1] in turn, each on its own accumulator lane and index,
    and undefined as soon as one of them is; the source operands play no
    part. *)
Theorem fragment_is_scalar_per_lane self junk accumulator source (s : nat -> ElementSource) :
  apply_fragment mem self junk accumulator
  = mapM (fun i => a ← accumulator !! i; apply_scalar mem self a (Z.of_nat i))
      (seq 0 kCount)
  /\ apply_fragment_source mem self junk accumulator source
     = mapM (fun i => a ← accumulator !! i;
                      apply_scalar_source mem self a (s i) (Z.of_nat i))
         (seq 0 kCount).
Proof.
  split; [apply apply_fragment_as_scalar|].
  exact (apply_fragment_as_scalar self junk accumulator).
Qed.

End Lanes.

Section Definedness.
Context `{Instantiation}.
Variable mem : gmap Z spec_float.
Local Open Scope float32_scope.

Lemma lane_value_reads self converted i :
  is_Some (lane_value mem self converted i) ->
  is_Some (converted !! i) /\
  is_Some (load mem (p1_ self) (Z.of_nat i)) /\
  is_Some (load mem (p2_ self) (Z.of_nat i)) /\
  is_Some (load mem (p3_ self) (Z.of_nat i)).
Proof.
  unfold lane_value. intros [v Hv].
  destruct (converted !! i); simpl in Hv; [|done].
  destruct (load mem (p2_ self) (Z.of_nat i)); simpl in Hv; [|done].
  destruct (load mem (p3_ self) (Z.of_nat i)); simpl in Hv; [|done].
  destruct (load mem (p1_ self) (Z.of_nat i)); simpl in Hv; [|done].
  eauto.
Qed.

Lemma apply_fragment_length self junk accumulator output :
  apply_fragment mem self junk accumulator = Some output -> length output = kCount.
Proof.
  rewrite apply_fragment_lanes. intros Hout.
  destruct (mapM _ _) as [vs|] eqn:Hvs; simpl in Hout; [|done].
  injection Hout as <-. rewrite length_fmap.
  apply length_mapM in Hvs. by rewrite <- Hvs, length_seq.
Qed.

(** X2. The fragment form returns exactly when the three parameter vectors can
    be read at the indices 0, ..., [kCount - 1], and then with [kCount]
    lanes. *)
Theorem fragment_returns_iff_readable self junk accumulator :
  length accumulator = kCount ->
  (params_readable mem self kCount = true <->
   exists output,
     apply_fragment mem self junk accumulator = Some output /\ length output = kCount).
Proof.
  intros Hlen. split; [intros Hr; by apply apply_fragment_total|].
  intros (output & Hout & _). rewrite apply_fragment_lanes in Hout.
  destruct (mapM _ _) as [vs|] eqn:Hvs; simpl in Hout; [|done].
  assert (Hsome : is_Some (mapM (lane_value mem self (accumulator_converter <$> accumulator))
                             (seq 0 kCount))) by eauto.
  rewrite mapM_is_Some, Forall_forall in Hsome.
  unfold params_readable. apply forallb_forall. intros i Hi.
  apply in_seq in Hi.
  destruct (lane_value_reads self (accumulator_converter <$> accumulator) i)
    as (_ & H1 & H2 & H3).
  { apply Hsome, elem_of_seq. lia. }
  rewrite !andb_true_iff, !bool_decide_eq_true. auto.
Qed.

End Definedness.

Section Footprint.
Context `{Instantiation}.
Local Open Scope float32_scope.

Lemma lane_value_footprint (mem mem' : gmap Z spec_float) self converted i :
  load mem (p1_ self) (Z.of_nat i) = load mem' (p1_ self) (Z.of_nat i) ->
  load mem (p2_ self) (Z.of_nat i) = load mem' (p2_ self) (Z.of_nat i) ->
  load mem (p3_ self) (Z.of_nat i) = load mem' (p3_ self) (Z.of_nat i) ->
  lane_value mem self converted i = lane_value mem' self converted i.
Proof. unfold lane_value. by intros -> -> ->. Qed.

(** X3. The fragment form reads the memory at the first [kCount] cells behind
    each of the three pointers and nowhere else. *)
Theorem fragment_footprint (mem mem' : gmap Z spec_float) self junk junk' accumulator :
  (forall i, i < kCount ->
     load mem (p1_ self) (Z.of_nat i) = load mem' (p1_ self) (Z.of_nat i) /\
     load mem (p2_ self) (Z.of_nat i) = load mem' (p2_ self) (Z.of_nat i) /\
     load mem (p3_ self) (Z.of_nat i) = load mem' (p3_ self) (Z.of_nat i)) ->
  apply_fragment mem self junk accumulator = apply_fragment mem' self junk' accumulator.
Proof.
  intros Hagree. rewrite !apply_fragment_lanes.
  rewrite (mapM_ext_seq (lane_value mem self (accumulator_converter <$> accumulator))
             (lane_value mem' self (accumulator_converter <$> accumulator))); [done|].
  intros i Hi. destruct (Hagree i Hi) as (H1 & H2 & H3). by apply lane_value_footprint.
Qed.

(** X4. Lane [i] of the output is made from lane [i] of the accumulator and no
    other lane. *)
Theorem fragment_lane_independent (mem : gmap Z spec_float) self junk junk'
    accumulator accumulator' output output' i :
  accumulator !! i = accumulator' !! i ->
  apply_fragment mem self junk accumulator = Some output ->
  apply_fragment mem self junk' accumulator' = Some output' ->
  output !! i = output' !! i.
Proof.
  intros Hlane Hout Hout'.
  destruct (decide (i < kCount)) as [Hi|Hi].
  - rewrite (apply_fragment_lookup mem _ _ _ _ _ Hout Hi),
            (apply_fragment_lookup mem _ _ _ _ _ Hout' Hi).
    unfold lane_value. by rewrite !list_lookup_fmap, Hlane.
  - apply apply_fragment_length in Hout, Hout'.
    rewrite !lookup_ge_None_2; [done|lia|lia].
Qed.

Lemma load_null (mem : gmap Z spec_float) idx : load mem nullptr idx = None.
Proof. unfold load. by rewrite bool_decide_eq_true_2. Qed.

(** X5. A null pointer among the three makes every call operator undefined,
    except that a fragment of no lanes is returned as it is. *)
Theorem null_pointer_undefined (mem : gmap Z spec_float) self junk accumulator source a s idx :
  p1_ self = nullptr \/ p2_ self = nullptr \/ p3_ self = nullptr ->
  apply_scalar mem self a idx = None /\
  apply_scalar_source mem self a s idx = None /\
  apply_fragment mem self junk accumulator
    = (if decide (kCount = 0) then Some [] else None) /\
  apply_fragment_source mem self junk accumulator source
    = (if decide (kCount = 0) then Some [] else None).
Proof.
  intros Hnull.
  assert (Hscalar : forall a idx, apply_scalar mem self a idx = None).
  { intros a0 idx0. unfold apply_scalar.
    destruct Hnull as [E|[E|E]]; rewrite E, ?load_null; simpl; try done.
    - destruct (load mem (p2_ self) idx0); simpl; [|done].
      by destruct (load mem (p3_ self) idx0).
    - by destruct (load mem (p2_ self) idx0). }
  assert (Hfrag : apply_fragment mem self junk accumulator
                  = if decide (kCount = 0) then Some [] else None).
  { rewrite apply_fragment_as_scalar.
    destruct (decide (kCount = 0)) as [->|Hk]; [done|].
    destruct kCount as [|n]; [done|]. simpl.
    destruct (accumulator !! 0); simpl; [|done]. by rewrite Hscalar. }
  split; [apply Hscalar|]. split; [apply Hscalar|]. split; [exact Hfrag|exact Hfrag].
Qed.

End Footprint.

Section ExponentFacts.
Local Open Scope float32_scope.

Lemma exponent_of_nan_deviation u :
  Float32.is_nan u = true -> Float32.neg_half * u * u = Float32.nan.
Proof. by destruct u. Qed.

(** The exponential is never handed a positive number: its argument is a
    NaN or carries a minus sign. *)
Lemma exponent_nan_or_negative a2 a3 x :
  Float32.valid a2 = true -> Float32.valid a3 = true -> Float32.valid x = true ->
  exponent_argument a2 a3 x = Float32.nan \/
  (sign_bit (exponent_argument a2 a3 x) = true /\
   Float32.leb (exponent_argument a2 a3 x) Float32.zero = true).
Proof.
  intros V2 V3 Vx. unfold exponent_argument.
  pose proof (div_valid _ _ (sub_valid a2 x V2 Vx) V3) as Vu.
  destruct (Float32.is_nan ((a2 - x) / a3)) eqn:Nu.
  - left. by apply exponent_of_nan_deviation.
  - right. split; [by apply exponent_sign|].
    apply leb_neg_zero; [by apply exponent_sign|by apply exponent_not_nan].
Qed.

(** A NaN in the accumulator, the mean or the standard deviation reaches
    the exponential as a NaN. *)
Lemma exponent_of_nan a2 a3 x :
  Float32.is_nan x = true \/ Float32.is_nan a2 = true \/ Float32.is_nan a3 = true ->
  exponent_argument a2 a3 x = Float32.nan.
Proof.
  intros Hnan. apply exponent_of_nan_deviation.
  destruct Hnan as [Hn|[Hn|Hn]].
  - destruct x; try done. by destruct a2.
  - by destruct a2.
  - destruct a3; try done. by destruct (a2 - x).
Qed.

(** An infinite accumulator is infinitely far from a finite mean. *)
Lemma exponent_of_infinite_accumulator a2 a3 s :
  Float32.is_finite a2 = true ->
  Float32.is_finite a3 = true -> Float32.is_zero a3 = false ->
  exponent_argument a2 a3 (S754_infinity s) = Float32.ninf.
Proof.
  destruct a2 as [s2| | |s2 m2 e2], a3 as [| | |s3 m3 e3]; try done; intros _ _ _;
    by destruct s, s3.
Qed.

Lemma div_opp_r x y : x / Float32.opp y = Float32.opp (x / y).
Proof.
  destruct x as [sx|sx| |sx mx ex], y as [sy|sy| |sy my ey]; simpl; try done;
    rewrite ?negb_xorb_r; try done.
  destruct (SFdiv_core_binary _ _ _ _ _ _) as [[mz ez] lz].
  rewrite <- negb_xorb_r. apply binary_round_aux_negb.
Qed.

(** The sign of the standard deviation is squared away. *)
Lemma exponent_of_negated_sigma a2 a3 x :
  exponent_argument a2 (Float32.opp a3) x = exponent_argument a2 a3 x.
Proof.
  unfold exponent_argument.
  by rewrite div_opp_r, !mul_opp_r, mul_opp_l, opp_involutive.
Qed.

(** Division is antitone in the magnitude of a finite non-zero divisor. *)
Lemma div_antitone x s3 m3 e3 s4 m4 e4 :
  Float32.valid x = true ->
  Float32.valid (S754_finite s3 m3 e3) = true ->
  Float32.valid (S754_finite s4 m4 e4) = true ->
  Float32.is_nan x = false ->
  ale (S754_finite s3 m3 e3) (S754_finite s4 m4 e4) ->
  ale (x / S754_finite s4 m4 e4) (x / S754_finite s3 m3 e3).
Proof.
  intros Vx V3 V4 Nx Hle.
  destruct x as [sx|sx| |sx mx ex]; try done.
  unfold Float32.div, SFdiv.
  destruct (div_core_spec mx ex m4 e4) as (q4 & e4' & l4 & -> & Hq4 & Hl4 & He4).
  destruct (div_core_spec mx ex m3 e3) as (q3 & e3' & l3 & -> & Hq3 & Hl3 & He3).
  eapply BRA_mono; eauto.
  pose proof (ale_F2R _ _ _ _ _ _ V3 V4 Hle).
  pose proof (F2R_pos m3 e3). pose proof (F2R_pos m4 e4). pose proof (F2R_pos mx ex).
  unfold Rdiv. apply Rmult_le_compat_l; [lra|].
  by apply Rinv_le_contravar.
Qed.

(** A standard deviation of larger magnitude brings the exponent argument
    closer to zero. *)
Lemma exponent_wider_sigma a2 a3 a3' x :
  Float32.valid a2 = true -> Float32.is_finite a2 = true ->
  Float32.valid x = true -> Float32.is_nan x = false ->
  Float32.valid a3 = true -> Float32.is_finite a3 = true -> Float32.is_zero a3 = false ->
  Float32.valid a3' = true -> Float32.is_finite a3' = true ->
  Float32.leb (Float32.abs a3) (Float32.abs a3') = true ->
  Float32.leb (exponent_argument a2 a3 x) (exponent_argument a2 a3' x) = true.
Proof.
  intros V2 F2 Vx Nx V3 F3 Z3 V3' F3' Hle.
  destruct a3 as [| | |s3 m3 e3]; try done.
  destruct a3' as [| | |s4 m4 e4]; try done.
  pose proof (sub_valid a2 x V2 Vx) as Vt.
  pose proof (sub_not_nan a2 x F2 Nx) as Nt.
  pose proof (div_antitone _ _ _ _ _ _ _ Vt V3 V3' Nt Hle) as Hu.
  unfold exponent_argument.
  apply leb_of_ale_neg.
  - apply exponent_sign; [by apply div_valid|by apply div_not_nan].
  - apply exponent_sign; [by apply div_valid|by apply div_not_nan].
  - apply exponent_not_nan; [by apply div_valid|by apply div_not_nan].
  - apply exponent_not_nan; [by apply div_valid|by apply div_not_nan].
  - apply exponent_mono; try done; try (by apply div_valid); by apply div_not_nan.
Qed.

(** A factor between 0 and 1 does not take a finite amplitude beyond
    itself. *)
Lemma amplitude_bound a1 e :
  Float32.valid a1 = true -> Float32.is_finite a1 = true ->
  Float32.valid e = true ->
  Float32.leb Float32.zero e = true -> Float32.leb e Float32.one = true ->
  Float32.leb (Float32.abs (a1 * e)) (Float32.abs a1) = true.
Proof.
  intros Va Fa Ve H0 H1.
  rewrite <- (mul_one_r a1 Va) at 2.
  by apply amplitude_decay.
Qed.

End ExponentFacts.

Section Outputs.
Context `{Instantiation}.
Local Open Scope float32_scope.

Lemma apply_scalar_value (mem : gmap Z spec_float) self a idx a1 a2 a3 :
  load mem (p1_ self) idx = Some a1 ->
  load mem (p2_ self) idx = Some a2 ->
  load mem (p3_ self) idx = Some a3 ->
  apply_scalar mem self a idx
  = Some (destination_converter
            (a1 * expf (exponent_argument a2 a3 (accumulator_converter a)))).
Proof. intros E1 E2 E3. unfold apply_scalar. by rewrite E2, E3, E1. Qed.

(** X6. The exponential is never handed a positive number: for parameters
    and a converted accumulator of the format, output lane [i] is the
    conversion of [p1[i] * expf(arg)] for an [arg] that is a NaN or carries
    a minus sign and is at most zero. *)
Theorem exponential_argument_never_positive (mem : gmap Z spec_float) self junk accumulator
    i a a1 a2 a3 :
  length accumulator = kCount ->
  params_readable mem self kCount = true ->
  accumulator !! i = Some a ->
  load mem (p1_ self) (Z.of_nat i) = Some a1 ->
  load mem (p2_ self) (Z.of_nat i) = Some a2 ->
  load mem (p3_ self) (Z.of_nat i) = Some a3 ->
  Float32.valid a2 = true -> Float32.valid a3 = true ->
  Float32.valid (accumulator_converter a) = true ->
  exists output arg,
    apply_fragment mem self junk accumulator = Some output /\
    output !! i = Some (destination_converter (a1 * expf arg)) /\
    (arg = Float32.nan \/
     (sign_bit arg = true /\ Float32.leb arg Float32.zero = true)).
Proof.
  intros Hlen Hr Ha E1 E2 E3 V2 V3 Vx.
  destruct (apply_fragment_lane mem self junk accumulator i a a1 a2 a3)
    as (output & Hout & _ & Ho); try done.
  exists output, (exponent_argument a2 a3 (accumulator_converter a)).
  split; [done|]. split; [exact Ho|]. by apply exponent_nan_or_negative.
Qed.

(** X7. With a finite amplitude and an exponential between 0 and 1 at the
    exponent argument, the value converted into output lane [i] does not
    exceed the amplitude [p1[i]] in magnitude. *)
Theorem output_within_amplitude (mem : gmap Z spec_float) self junk accumulator i a a1 a2 a3 :
  length accumulator = kCount ->
  params_readable mem self kCount = true ->
  accumulator !! i = Some a ->
  load mem (p1_ self) (Z.of_nat i) = Some a1 ->
  load mem (p2_ self) (Z.of_nat i) = Some a2 ->
  load mem (p3_ self) (Z.of_nat i) = Some a3 ->
  Float32.valid a1 = true -> Float32.is_finite a1 = true ->
  Float32.valid (expf (exponent_argument a2 a3 (accumulator_converter a))) = true ->
  Float32.leb Float32.zero (expf (exponent_argument a2 a3 (accumulator_converter a))) = true ->
  Float32.leb (expf (exponent_argument a2 a3 (accumulator_converter a))) Float32.one = true ->
  exists output v,
    apply_fragment mem self junk accumulator = Some output /\
    output !! i = Some (destination_converter v) /\
    Float32.leb (Float32.abs v) (Float32.abs a1) = true.
Proof.
  intros Hlen Hr Ha E1 E2 E3 V1 F1 Ve H0 H1.
  destruct (apply_fragment_lane mem self junk accumulator i a a1 a2 a3)
    as (output & Hout & _ & Ho); try done.
  eexists output, _. split; [done|]. split; [exact Ho|].
  by apply amplitude_bound.
Qed.

(** X8. Negating the standard deviation [p3[idx]] in memory does not change
    what the scalar form returns. *)
Theorem negated_sigma_same_output (mem mem' : gmap Z spec_float) self a idx a3 :
  load mem' (p1_ self) idx = load mem (p1_ self) idx ->
  load mem' (p2_ self) idx = load mem (p2_ self) idx ->
  load mem (p3_ self) idx = Some a3 ->
  load mem' (p3_ self) idx = Some (Float32.opp a3) ->
  apply_scalar mem' self a idx = apply_scalar mem self a idx.
Proof.
  intros E1 E2 E3 E3'.
  destruct (load mem (p2_ self) idx) as [a2|] eqn:L2; cycle 1.
  { unfold apply_scalar. by rewrite E2, L2. }
  destruct (load mem (p1_ self) idx) as [a1|] eqn:L1; cycle 1.
  { unfold apply_scalar. by rewrite E2, L2, E3, E3', E1, L1. }
  rewrite (apply_scalar_value mem' self a idx a1 a2 (Float32.opp a3)) by congruence.
  rewrite (apply_scalar_value mem self a idx a1 a2 a3) by congruence.
  by rewrite exponent_of_negated_sigma.
Qed.

(** X9. Of two finite non-zero standard deviations at [p3[idx]], the one of
    larger magnitude gives the exponent argument closer to zero, and, with
    an exponential ordered on the two arguments, the value of larger
    magnitude. *)
Theorem wider_sigma_larger_output (mem mem' : gmap Z spec_float) self a idx a1 a2 a3 a3' :
  load mem (p1_ self) idx = Some a1 -> load mem' (p1_ self) idx = Some a1 ->
  load mem (p2_ self) idx = Some a2 -> load mem' (p2_ self) idx = Some a2 ->
  load mem (p3_ self) idx = Some a3 -> load mem' (p3_ self) idx = Some a3' ->
  Float32.valid a1 = true -> Float32.is_finite a1 = true ->
  Float32.valid a2 = true -> Float32.is_finite a2 = true ->
  Float32.valid (accumulator_converter a) = true ->
  Float32.is_nan (accumulator_converter a) = false ->
  Float32.valid a3 = true -> Float32.is_finite a3 = true -> Float32.is_zero a3 = false ->
  Float32.valid a3' = true -> Float32.is_finite a3' = true ->
  Float32.leb (Float32.abs a3) (Float32.abs a3') = true ->
  Float32.valid (expf (exponent_argument a2 a3 (accumulator_converter a))) = true ->
  Float32.valid (expf (exponent_argument a2 a3' (accumulator_converter a))) = true ->
  Float32.is_finite (expf (exponent_argument a2 a3' (accumulator_converter a))) = true ->
  Float32.leb Float32.zero (expf (exponent_argument a2 a3 (accumulator_converter a))) = true ->
  Float32.leb (expf (exponent_argument a2 a3 (accumulator_converter a)))
              (expf (exponent_argument a2 a3' (accumulator_converter a))) = true ->
  Float32.leb (exponent_argument a2 a3 (accumulator_converter a))
              (exponent_argument a2 a3' (accumulator_converter a)) = true /\
  exists v v',
    apply_scalar mem self a idx = Some (destination_converter v) /\
    apply_scalar mem' self a idx = Some (destination_converter v') /\
    Float32.leb (Float32.abs v) (Float32.abs v') = true.
Proof.
  intros E1 E1' E2 E2' E3 E3' V1 F1 V2 F2 Vx Nx V3 F3 Z3 V3' F3' Hle Ve Ve' Fe' H0 Hee.
  split; [by apply exponent_wider_sigma|].
  eexists _, _.
  split; [by apply apply_scalar_value|]. split; [by apply apply_scalar_value|].
  by apply amplitude_decay.
Qed.

(** X10. A NaN in the converted accumulator, in [p2[i]] or in [p3[i]]
    reaches the exponential as a NaN, and output lane [i] is the conversion
    of [p1[i] * expf(NaN)]: of a NaN, when the exponential returns one. *)
Theorem nan_reaches_exponential (mem : gmap Z spec_float) self junk accumulator i a a1 a2 a3 :
  length accumulator = kCount ->
  params_readable mem self kCount = true ->
  accumulator !! i = Some a ->
  load mem (p1_ self) (Z.of_nat i) = Some a1 ->
  load mem (p2_ self) (Z.of_nat i) = Some a2 ->
  load mem (p3_ self) (Z.of_nat i) = Some a3 ->
  Float32.is_nan (accumulator_converter a) = true \/
    Float32.is_nan a2 = true \/ Float32.is_nan a3 = true ->
  exists output,
    apply_fragment mem self junk accumulator = Some output /\
    output !! i = Some (destination_converter (a1 * expf Float32.nan)) /\
    (expf Float32.nan = Float32.nan ->
     output !! i = Some (destination_converter Float32.nan)).
Proof.
  intros Hlen Hr Ha E1 E2 E3 Hnan.
  destruct (apply_fragment_lane mem self junk accumulator i a a1 a2 a3)
    as (output & Hout & _ & Ho); try done.
  exists output. split; [done|].
  pose proof (exponent_of_nan a2 a3 (accumulator_converter a) Hnan) as Harg.
  unfold exponent_argument in Harg. rewrite Harg in Ho.
  split; [done|]. intros He. rewrite Ho, He. by destruct a1.
Qed.

(** X11. An infinite converted accumulator, with a finite mean and a finite
    non-zero standard deviation, gives the exponent argument [-inf]: output
    lane [i] is the conversion of [p1[i] * expf(-inf)], a zero when the
    exponential returns [+0] there and [p1[i]] is finite. *)
Theorem infinite_accumulator_tail (mem : gmap Z spec_float) self junk accumulator i a a1 a2 a3 s :
  length accumulator = kCount ->
  params_readable mem self kCount = true ->
  accumulator !! i = Some a ->
  load mem (p1_ self) (Z.of_nat i) = Some a1 ->
  load mem (p2_ self) (Z.of_nat i) = Some a2 ->
  load mem (p3_ self) (Z.of_nat i) = Some a3 ->
  accumulator_converter a = S754_infinity s ->
  Float32.is_finite a2 = true ->
  Float32.is_finite a3 = true -> Float32.is_zero a3 = false ->
  exists output,
    apply_fragment mem self junk accumulator = Some output /\
    output !! i = Some (destination_converter (a1 * expf Float32.ninf)) /\
    (expf Float32.ninf = Float32.zero -> Float32.is_finite a1 = true ->
     exists s', output !! i = Some (destination_converter (S754_zero s'))).
Proof.
  intros Hlen Hr Ha E1 E2 E3 Hx F2 F3 Z3.
  destruct (apply_fragment_lane mem self junk accumulator i a a1 a2 a3)
    as (output & Hout & _ & Ho); try done.
  exists output. split; [done|].
  pose proof (exponent_of_infinite_accumulator a2 a3 s F2 F3 Z3) as Harg.
  unfold exponent_argument in Harg. rewrite Hx, Harg in Ho.
  split; [done|]. intros He Hfin. rewrite Ho, He. unfold Float32.zero.
  destruct (mul_zero_r a1 false Hfin) as [s' ->]. eauto.
Qed.

(** X12. With a zero standard deviation and the converted accumulator on a
    finite mean, the deviation over the standard deviation is [0 / 0], the
    exponent argument is a NaN, and output lane [i] is the conversion of
    [p1[i] * expf(NaN)]. *)
Theorem zero_sigma_at_mean (mem : gmap Z spec_float) self junk accumulator i a a1 a2 a3 :
  length accumulator = kCount ->
  params_readable mem self kCount = true ->
  accumulator !! i = Some a ->
  load mem (p1_ self) (Z.of_nat i) = Some a1 ->
  load mem (p2_ self) (Z.of_nat i) = Some a2 ->
  load mem (p3_ self) (Z.of_nat i) = Some a3 ->
  accumulator_converter a = a2 ->
  Float32.is_finite a2 = true ->
  Float32.is_zero a3 = true ->
  exists output,
    apply_fragment mem self junk accumulator = Some output /\
    output !! i = Some (destination_converter (a1 * expf Float32.nan)) /\
    (expf Float32.nan = Float32.nan ->
     output !! i = Some (destination_converter Float32.nan)).
Proof.
  intros Hlen Hr Ha E1 E2 E3 Hx F2 Z3.
  destruct (apply_fragment_lane mem self junk accumulator i a a1 a2 a3)
    as (output & Hout & _ & Ho); try done.
  exists output. split; [done|].
  rewrite Hx, exponent_at_zero_sigma_mean in Ho by done.
  split; [done|]. intros He. rewrite Ho, He. by destruct a1.
Qed.

End Outputs.

Section SignAndShift.
Context `{Instantiation}.
Local Open Scope float32_scope.

(** X13. Unless it is a NaN, the value converted into output lane [i] has
    the sign of the amplitude [p1[i]], zeros included, when the exponential
    returns a result with a clear sign bit. *)
Theorem output_has_sign_of_amplitude (mem : gmap Z spec_float) self junk accumulator
    i a a1 a2 a3 :
  length accumulator = kCount ->
  params_readable mem self kCount = true ->
  accumulator !! i = Some a ->
  load mem (p1_ self) (Z.of_nat i) = Some a1 ->
  load mem (p2_ self) (Z.of_nat i) = Some a2 ->
  load mem (p3_ self) (Z.of_nat i) = Some a3 ->
  sign_bit (expf (exponent_argument a2 a3 (accumulator_converter a))) = false ->
  Float32.is_nan (a1 * expf (exponent_argument a2 a3 (accumulator_converter a))) = false ->
  exists output v,
    apply_fragment mem self junk accumulator = Some output /\
    output !! i = Some (destination_converter v) /\
    Float32.is_nan v = false /\
    sign_bit v = sign_bit a1.
Proof.
  intros Hlen Hr Ha E1 E2 E3 Hs Hn.
  destruct (apply_fragment_lane mem self junk accumulator i a a1 a2 a3)
    as (output & Hout & _ & Ho); try done.
  eexists output, _. split; [done|]. split; [exact Ho|]. split; [exact Hn|].
  rewrite mul_sign by exact Hn.
  unfold exponent_argument in Hs. rewrite Hs. by destruct (sign_bit a1).
Qed.

Lemma load_shift (mem : gmap Z spec_float) p k idx :
  p <> nullptr -> (p + k)%Z <> nullptr ->
  load mem (p + k) idx = load mem p (idx + k).
Proof.
  intros Hp Hpk. unfold load.
  rewrite !bool_decide_eq_false_2 by done.
  f_equal. lia.
Qed.

(** X14. A functor built on the three pointers advanced by [k] cells reads
    at index [idx] what the functor on the pointers themselves reads at
    index [idx + k]: the scalar forms return the same. *)
Theorem scalar_pointer_shift (mem : gmap Z spec_float) params k a s idx :
  p1 params <> nullptr -> p2 params <> nullptr -> p3 params <> nullptr ->
  (p1 params + k)%Z <> nullptr -> (p2 params + k)%Z <> nullptr ->
  (p3 params + k)%Z <> nullptr ->
  apply_scalar mem
    (GaussianEpilogue_new
       {| p1 := p1 params + k; p2 := p2 params + k; p3 := p3 params + k |}) a idx
  = apply_scalar mem (GaussianEpilogue_new params) a (idx + k)
  /\ apply_scalar_source mem
       (GaussianEpilogue_new
          {| p1 := p1 params + k; p2 := p2 params + k; p3 := p3 params + k |}) a s idx
     = apply_scalar_source mem (GaussianEpilogue_new params) a s (idx + k).
Proof.
  intros H1 H2 H3 H1' H2' H3'.
  unfold apply_scalar, apply_scalar_source, GaussianEpilogue_new. simpl.
  by rewrite !load_shift.
Qed.

End SignAndShift.

(** The properties above on the scenario of the spec and its variants. *)
Lemma fragment_returns_iff_readable_witness :
  params_readable scenario_memory functor_at_16_32_48 1 = true <->
  exists output,
    @apply_fragment (float_instance 1) scenario_memory functor_at_16_32_48 no_junk
      [one_and_half] = Some output /\ length output = 1.
Proof.
  apply (@fragment_returns_iff_readable (float_instance 1) scenario_memory
           functor_at_16_32_48 no_junk [one_and_half]).
  reflexivity.
Defined.

Lemma fragment_footprint_witness :
  @apply_fragment (float_instance 1) scenario_memory functor_at_16_32_48 no_junk
    [one_and_half]
  = @apply_fragment (float_instance 1) scribbled_memory functor_at_16_32_48
      (fun _ => Float32.nan) [one_and_half].
Proof.
  apply (@fragment_footprint (float_instance 1) scenario_memory scribbled_memory
           functor_at_16_32_48 no_junk (fun _ => Float32.nan) [one_and_half]).
  intros i Hi. change (i < 1) in Hi.
  assert (i = 0) as -> by lia. repeat split; reflexivity.
Defined.

Lemma fragment_lane_independent_witness :
  exists output output',
    @apply_fragment (float_instance 2) two_lane_memory functor_at_16_32_48 no_junk
      [one_and_half; two] = Some output /\
    @apply_fragment (float_instance 2) two_lane_memory functor_at_16_32_48 no_junk
      [one_and_half; Float32.one] = Some output' /\
    output !! 0 = output' !! 0.
Proof.
  eexists _, _. split; [reflexivity|]. split; [reflexivity|].
  apply (@fragment_lane_independent (float_instance 2) two_lane_memory
           functor_at_16_32_48 no_junk no_junk [one_and_half; two]
           [one_and_half; Float32.one] _ _ 0); reflexivity.
Defined.

Lemma null_pointer_undefined_witness :
  @apply_scalar (float_instance 1) scenario_memory (GaussianEpilogue_new Params_default)
    one_and_half 0 = None /\
  @apply_scalar_source (float_instance 1) scenario_memory
    (GaussianEpilogue_new Params_default) one_and_half two 0 = None /\
  @apply_fragment (float_instance 1) scenario_memory (GaussianEpilogue_new Params_default)
    no_junk [one_and_half] = None /\
  @apply_fragment_source (float_instance 1) scenario_memory
    (GaussianEpilogue_new Params_default) no_junk [one_and_half] [two] = None.
Proof.
  apply (@null_pointer_undefined (float_instance 1) scenario_memory
           (GaussianEpilogue_new Params_default) no_junk [one_and_half] [two]
           one_and_half two 0).
  left. reflexivity.
Defined.

Lemma exponential_argument_never_positive_witness :
  exists output arg,
    @apply_fragment (float_instance 1) scenario_memory functor_at_16_32_48 no_junk
      [one_and_half] = Some output /\
    output !! 0 = Some (two * RefExp.expf arg)%f32 /\
    (arg = Float32.nan \/
     (sign_bit arg = true /\ Float32.leb arg Float32.zero = true)).
Proof.
  apply (@exponential_argument_never_positive (float_instance 1) scenario_memory
           functor_at_16_32_48 no_junk [one_and_half] 0 one_and_half two Float32.one
           one_half); reflexivity.
Defined.

Lemma output_within_amplitude_witness :
  exists output v,
    @apply_fragment (float_instance 1) scenario_memory functor_at_16_32_48 no_junk
      [one_and_half] = Some output /\
    output !! 0 = Some v /\
    Float32.leb (Float32.abs v) (Float32.abs two) = true.
Proof.
  apply (@output_within_amplitude (float_instance 1) scenario_memory functor_at_16_32_48
           no_junk [one_and_half] 0 one_and_half two Float32.one one_half);
    vm_compute; reflexivity.
Defined.

Lemma negated_sigma_same_output_witness :
  @apply_scalar (float_instance 1) negated_sigma_memory functor_at_16_32_48 one_and_half 0
  = @apply_scalar (float_instance 1) scenario_memory functor_at_16_32_48 one_and_half 0.
Proof.
  apply (@negated_sigma_same_output (float_instance 1) scenario_memory negated_sigma_memory
           functor_at_16_32_48 one_and_half 0 one_half); reflexivity.
Defined.

Lemma wider_sigma_larger_output_witness :
  Float32.leb (exponent_argument Float32.one one_half two)
              (exponent_argument Float32.one Float32.one two) = true /\
  exists v v',
    @apply_scalar (float_instance 1) scenario_memory functor_at_16_32_48 two 0 = Some v /\
    @apply_scalar (float_instance 1) unit_sigma_memory functor_at_16_32_48 two 0 = Some v' /\
    Float32.leb (Float32.abs v) (Float32.abs v') = true.
Proof.
  apply (@wider_sigma_larger_output (float_instance 1) scenario_memory unit_sigma_memory
           functor_at_16_32_48 two 0 two Float32.one one_half Float32.one);
    vm_compute; reflexivity.
Defined.

Lemma nan_reaches_exponential_witness :
  exists output,
    @apply_fragment (float_instance 1) nan_mean_memory functor_at_16_32_48 no_junk
      [one_and_half] = Some output /\
    output !! 0 = Some Float32.nan.
Proof.
  destruct (@nan_reaches_exponential (float_instance 1) nan_mean_memory functor_at_16_32_48
              no_junk [one_and_half] 0 one_and_half two Float32.nan one_half)
    as (output & Hout & _ & Hnan); try reflexivity.
  - right. left. reflexivity.
  - exists output. split; [exact Hout|]. apply Hnan. reflexivity.
Defined.

Lemma infinite_accumulator_tail_witness :
  exists output s',
    @apply_fragment (float_instance 1) scenario_memory functor_at_16_32_48 no_junk
      [Float32.pinf] = Some output /\
    output !! 0 = Some (S754_zero s').
Proof.
  destruct (@infinite_accumulator_tail (float_instance 1) scenario_memory
              functor_at_16_32_48 no_junk [Float32.pinf] 0 Float32.pinf two Float32.one
              one_half false)
    as (output & Hout & _ & Hzero); try reflexivity.
  destruct Hzero as [s' Hs']; try reflexivity.
  exists output, s'. split; [exact Hout|exact Hs'].
Defined.

Lemma zero_sigma_at_mean_witness :
  exists output,
    @apply_fragment (float_instance 1) zero_sigma_memory functor_at_16_32_48 no_junk
      [Float32.one] = Some output /\
    output !! 0 = Some Float32.nan.
Proof.
  destruct (@zero_sigma_at_mean (float_instance 1) zero_sigma_memory functor_at_16_32_48
              no_junk [Float32.one] 0 Float32.one two Float32.one Float32.zero)
    as (output & Hout & _ & Hnan); try reflexivity.
  exists output. split; [exact Hout|]. apply Hnan. reflexivity.
Defined.

Lemma output_has_sign_of_amplitude_witness :
  exists output v,
    @apply_fragment (float_instance 1) negated_amplitude_memory functor_at_16_32_48 no_junk
      [one_and_half] = Some output /\
    output !! 0 = Some v /\
    Float32.is_nan v = false /\
    sign_bit v = true.
Proof.
  apply (@output_has_sign_of_amplitude (float_instance 1) negated_amplitude_memory
           functor_at_16_32_48 no_junk [one_and_half] 0 one_and_half (Float32.opp two)
           Float32.one one_half);
    vm_compute; reflexivity.
Defined.

Lemma scalar_pointer_shift_witness :
  @apply_scalar (float_instance 2) two_lane_memory
    (GaussianEpilogue_new {| p1 := 17; p2 := 33; p3 := 49 |}) one_and_half 0
  = @apply_scalar (float_instance 2) two_lane_memory functor_at_16_32_48 one_and_half 1
  /\ @apply_scalar_source (float_instance 2) two_lane_memory
       (GaussianEpilogue_new {| p1 := 17; p2 := 33; p3 := 49 |}) one_and_half two 0
     = @apply_scalar_source (float_instance 2) two_lane_memory functor_at_16_32_48
         one_and_half two 1.
Proof.
  apply (@scalar_pointer_shift (float_instance 2) two_lane_memory
           {| p1 := 16; p2 := 32; p3 := 48 |} 1 one_and_half two 0); discriminate.
Defined.
